(** * memegrid: the sliding-puzzle engine and the leaderboard policy

    A shallow embedding of [src/shared/puzzle.ts] (seeded generator, shuffle,
    solvability predicate, move validation and application), of the hint
    heuristic of the game client ([getNextMoveHint]) and of the two
    leaderboard routes of the server ([/submit-score], [/leaderboard]).

    Numbers.  Every number the engine handles is an integer; JavaScript
    stores them as doubles, whose arithmetic on integers is exact as long as
    no intermediate result exceeds 2^53 in absolute value.  The generator
    computes [state * 1664525 + 1013904223]: for a state of absolute value at
    most 5411272429 that number is within 2^53 (for 5411272430 it is not,
    and the double is rounded), and every state the generator leaves is
    below 2^32 in absolute value.  The embedding over [Z] is therefore the
    code for the seeds -5411272429 .. 5411272429, which include the seeds
    the scheduler produces ([Math.abs] of a 32-bit hash, at most 2^31); the
    statements about the generator carry the range 0 .. 5411272429 as a
    hypothesis.  [a % b] is the
    truncating remainder [Z.rem]; [Math.floor (a / b)] is [Z.div] (floor
    division, for [b <> 0]). *)

From Stdlib Require Import ZArith QArith Qround Lia List Permutation Sorted Bool.
From stdpp Require Import base option list sorting gmap strings pretty.

#[local] Open Scope Z_scope.

(** ** JavaScript arrays of numbers *)

Module JsArray.

(** An array object: its elements at the keys [0 .. length-1] (a hole or a
    stored [undefined] is [None]; the two read alike and differ only for
    [every], see [every_at_index]) and the properties stored under negative
    keys, which are not elements: [length], spread, [indexOf] and [every]
    do not see them, an index expression [a[k]] does. *)
Record t := Make { elems : list (option Z); props : gmap Z (option Z) }.

Definition of_list (l : list Z) : t := Make (Some <$> l) ∅.

Definition length (a : t) : Z := Z.of_nat (List.length (elems a)).

(** [a[k]] *)
Definition get (a : t) (k : Z) : option Z :=
  if 0 <=? k then mjoin (elems a !! Z.to_nat k) else mjoin (props a !! k).

(** [a[k] = v]; writing at or past [length] extends the array with holes. *)
Definition set (a : t) (k : Z) (v : option Z) : t :=
  if k <? 0 then Make (elems a) (<[k := v]> (props a))
  else if k <? length a then Make (<[Z.to_nat k := v]> (elems a)) (props a)
  else Make (elems a ++ replicate (Z.to_nat (k - length a)) None ++ [v]) (props a).

(** [[...a]] *)
Definition spread (a : t) : t := Make (elems a) ∅.

Fixpoint index_from (l : list (option Z)) (v : Z) (i : Z) : Z :=
  match l with
  | [] => -1
  | x :: l' => if decide (x = Some v) then i else index_from l' v (i + 1)
  end.

(** [a.indexOf(v)] *)
Definition indexOf (a : t) (v : Z) : Z := index_from (elems a) v 0.

End JsArray.

Abbreviation jsarray := JsArray.t.

(** ** The seeded generator *)

(** [createSeededRandom]: the closure's only mutable cell is [currentSeed];
    the generator is that cell, threaded through the calls of [next]. *)
Definition SeededRandom := Z.

Definition createSeededRandom (seed : Z) : SeededRandom := seed.

(** [next]: the new cell and the returned quotient [currentSeed / 2 ** 32].
    The product and the sum are those of the doubles while they stay within
    2^53, that is for a cell of absolute value at most [maxExactSeed];
    beyond that the code rounds (and from about 1.08e302 on overflows to
    [NaN]), which this definition does not follow. *)
Definition maxExactSeed : Z := 5411272429.

Definition next (currentSeed : SeededRandom) : Q * SeededRandom :=
  let currentSeed := Z.rem (currentSeed * 1664525 + 1013904223) (2 ^ 32) in
  (currentSeed # 2 ^ 32, currentSeed).

(** ** Fisher-Yates shuffle *)

(** The body of the [for] loop of [seededShuffle], at index [i].  The
    product [rng.next() * (i + 1)] is a rational here; it is the double of
    the code for a state below 2^32 and [i + 1] up to 2^21. *)
Definition shuffle_step (i : Z) (shuffled : jsarray) (rng : SeededRandom)
  : jsarray * SeededRandom :=
  let '(r, rng) := next rng in
  let j := Qfloor (r * inject_Z (i + 1)) in
  let temp := JsArray.get shuffled i in
  let shuffled := JsArray.set shuffled i (JsArray.get shuffled j) in
  let shuffled := JsArray.set shuffled j temp in
  (shuffled, rng).

(** [for (let i = n; i > 0; i--)] *)
Fixpoint shuffle_loop (n : nat) (shuffled : jsarray) (rng : SeededRandom)
  : jsarray * SeededRandom :=
  match n with
  | O => (shuffled, rng)
  | S n' =>
      let '(shuffled, rng) := shuffle_step (Z.of_nat n) shuffled rng in
      shuffle_loop n' shuffled rng
  end.

Definition seededShuffle (array : jsarray) (rng : SeededRandom)
  : jsarray * SeededRandom :=
  let shuffled := JsArray.spread array in
  shuffle_loop (Z.to_nat (JsArray.length shuffled - 1)) shuffled rng.

(** ** Solvability *)

(** The inner loop of [countInversions]: the entries after position [i] that
    are defined, are not the empty tile and are below [valI]. *)
Fixpoint inversions_of (valI : Z) (rest : list (option Z)) (empty : Z) : Z :=
  match rest with
  | [] => 0
  | valJ :: rest' =>
      (match valJ with
       | None => 0
       | Some vj => if vj =? empty then 0 else if vj <? valI then 1 else 0
       end) + inversions_of valI rest' empty
  end.

Fixpoint count_from (l : list (option Z)) (empty : Z) : Z :=
  match l with
  | [] => 0
  | valI :: rest =>
      (match valI with
       | None => 0
       | Some vi => if vi =? empty then 0 else inversions_of vi rest empty
       end) + count_from rest empty
  end.

Definition countInversions (grid : jsarray) (size : Z) : Z :=
  count_from (JsArray.elems grid) (size * size - 1).

Definition getEmptyRow (grid : jsarray) (size : Z) : Z :=
  let emptyIndex := JsArray.indexOf grid (size * size - 1) in
  emptyIndex / size.

Definition isSolvable (grid : jsarray) (size : Z) : bool :=
  let inversions := countInversions grid size in
  let emptyRow := getEmptyRow grid size in
  if Z.rem size 2 =? 1 then Z.rem inversions 2 =? 0
  else Z.rem (inversions + emptyRow) 2 =? 0.

(** ** Puzzle states *)

Record PuzzleState := mkPuzzle { grid : jsarray; emptyIndex : Z; size : Z }.

(** [Array.from({ length: totalTiles }, (_, i) => i)] *)
Definition solvedGrid (totalTiles : Z) : jsarray :=
  JsArray.of_list (seqZ 0 totalTiles).

(** The fallback branch of [createShuffledPuzzle]: a copy of the solved grid
    with its last two entries exchanged. *)
Definition fallbackGrid (totalTiles : Z) : jsarray :=
  let grid := JsArray.spread (solvedGrid totalTiles) in
  let last := JsArray.get grid (totalTiles - 1) in
  let secondLast := JsArray.get grid (totalTiles - 2) in
  match last, secondLast with
  | Some _, Some _ =>
      let grid := JsArray.set grid (totalTiles - 1) secondLast in
      JsArray.set grid (totalTiles - 2) last
  | _, _ => grid
  end.

(** The [do ... while] loop of [createShuffledPuzzle].  [budget] is
    [100 - attempts] on entry of the body: after [attempts++] the test
    [attempts > 100] holds exactly when the budget is exhausted. *)
Fixpoint shuffleUntilSolvable (budget : nat) (size : Z) (rng : SeededRandom)
  : jsarray :=
  let totalTiles := size * size in
  let '(grid, rng) := seededShuffle (solvedGrid totalTiles) rng in
  match budget with
  | O => fallbackGrid totalTiles
  | S budget' =>
      if isSolvable grid size then grid
      else shuffleUntilSolvable budget' size rng
  end.

Definition createShuffledPuzzle (size seed : Z) : PuzzleState :=
  let totalTiles := size * size in
  let emptyIndex := totalTiles - 1 in
  let rng := createSeededRandom seed in
  let grid := shuffleUntilSolvable 100 size rng in
  mkPuzzle grid (JsArray.indexOf grid emptyIndex) size.

(** ** Moves *)

Definition getAdjacentIndices (index size : Z) : list Z :=
  let row := index / size in
  let col := Z.rem index size in
  (if 0 <? row then [index - size] else [])            (* Up *)
  ++ (if row <? size - 1 then [index + size] else [])  (* Down *)
  ++ (if 0 <? col then [index - 1] else [])            (* Left *)
  ++ (if col <? size - 1 then [index + 1] else []).    (* Right *)

Definition isValidMove (puzzle : PuzzleState) (tileIndex : Z) : bool :=
  let adjacent := getAdjacentIndices tileIndex (size puzzle) in
  bool_decide (emptyIndex puzzle ∈ adjacent).

(** [makeMove] on values: [None] is the [null] of the source. *)
Definition makeMove (puzzle : PuzzleState) (tileIndex : Z) : option PuzzleState :=
  if negb (isValidMove puzzle tileIndex) then None
  else
    let newGrid := JsArray.spread (grid puzzle) in
    let tileValue := JsArray.get newGrid tileIndex in
    let emptyValue := JsArray.get newGrid (emptyIndex puzzle) in
    match tileValue, emptyValue with
    | Some _, Some _ =>
        let newGrid := JsArray.set newGrid tileIndex emptyValue in
        let newGrid := JsArray.set newGrid (emptyIndex puzzle) tileValue in
        Some (mkPuzzle newGrid tileIndex (size puzzle))
    | _, _ => None
    end.

(** [puzzle.grid.every((value, index) => value === index)], on a grid
    without holes: a stored [undefined] fails the test [value === index],
    while [every] skips a hole, and the element list does not tell the two
    apart.  The grids the engine builds have no hole (spread, [Array.from]
    and the writes of the shuffle and of [makeMove] within the length make
    none), and the statements about [isSolved] on arbitrary grids assume
    every slot defined. *)
Fixpoint every_at_index (l : list (option Z)) (index : Z) : bool :=
  match l with
  | [] => true
  | value :: l' => bool_decide (value = Some index) && every_at_index l' (index + 1)
  end.

Definition isSolved (puzzle : PuzzleState) : bool :=
  every_at_index (JsArray.elems (grid puzzle)) 0.

(** ** Moves on array objects

    In the source a grid is an array object and a state holds a reference to
    it.  The store below maps references to array objects; [makeMoveRef] is
    [makeMove] with the allocation of [newGrid] and the two assignments to it
    written out, so that what happens to the caller's array can be stated. *)

Module Ref.

Record PuzzleState := mkPuzzle { grid : positive; emptyIndex : Z; size : Z }.

Definition isValidMove (puzzle : PuzzleState) (tileIndex : Z) : bool :=
  let adjacent := getAdjacentIndices tileIndex (size puzzle) in
  bool_decide (emptyIndex puzzle ∈ adjacent).

(** [const newGrid = [...a]]: a new object at an unused reference. *)
Definition alloc (a : jsarray) (store : gmap positive jsarray)
  : positive * gmap positive jsarray :=
  let r := fresh (dom store) in (r, <[r := a]> store).

(** [r[k] = v] *)
Definition assign (r : positive) (k : Z) (v : option Z)
    (store : gmap positive jsarray) : gmap positive jsarray :=
  alter (fun a => JsArray.set a k v) r store.

Definition read (r : positive) (k : Z) (store : gmap positive jsarray)
  : option Z :=
  a ← store !! r; JsArray.get a k.

(** References held by a state are live: the [None] branch of the first
    match is never taken on a store that holds the state's grid. *)
Definition makeMoveRef (puzzle : PuzzleState) (tileIndex : Z)
    (store : gmap positive jsarray)
  : option PuzzleState * gmap positive jsarray :=
  if negb (isValidMove puzzle tileIndex) then (None, store)
  else
    match store !! grid puzzle with
    | None => (None, store)
    | Some a =>
        let '(newGrid, store) := alloc (JsArray.spread a) store in
        let tileValue := read newGrid tileIndex store in
        let emptyValue := read newGrid (emptyIndex puzzle) store in
        match tileValue, emptyValue with
        | Some _, Some _ =>
            let store := assign newGrid tileIndex emptyValue store in
            let store := assign newGrid (emptyIndex puzzle) tileValue store in
            (Some (mkPuzzle newGrid tileIndex (size puzzle)), store)
        | _, _ => (None, store)
        end
    end.

End Ref.

(** ** The hint heuristic *)

(** The score of one candidate in [getNextMoveHint]; an undefined tile value
    makes every distance [NaN], which is [None] here. *)
Definition hintScore (puzzle : PuzzleState) (tileIndex : Z) : option Z :=
  let size := size puzzle in
  let emptyIndex := emptyIndex puzzle in
  tileValue ← JsArray.get (grid puzzle) tileIndex;
  let targetIndex := tileValue in
  let currentRow := tileIndex / size in
  let currentCol := Z.rem tileIndex size in
  let targetRow := targetIndex / size in
  let targetCol := Z.rem targetIndex size in
  let currentDist := Z.abs (currentRow - targetRow) + Z.abs (currentCol - targetCol) in
  let newRow := emptyIndex / size in
  let newCol := Z.rem emptyIndex size in
  let newDist := Z.abs (newRow - targetRow) + Z.abs (newCol - targetCol) in
  Some (currentDist - newDist).

(** One iteration of the scoring loop on the pair [(bestTile, bestScore)];
    [NaN > bestScore] is false. *)
Definition hintStep (puzzle : PuzzleState) (best : option Z * Z) (tileIndex : Z)
  : option Z * Z :=
  match hintScore puzzle tileIndex with
  | Some score => if best.2 <? score then (Some tileIndex, score) else best
  | None => best
  end.

Definition hintMoves (puzzle : PuzzleState) : list Z :=
  let emptyIndex := emptyIndex puzzle in
  let size := size puzzle in
  let row := emptyIndex / size in
  let col := Z.rem emptyIndex size in
  (if 0 <? row then [emptyIndex - size] else [])            (* Up *)
  ++ (if row <? size - 1 then [emptyIndex + size] else [])  (* Down *)
  ++ (if 0 <? col then [emptyIndex - 1] else [])            (* Left *)
  ++ (if col <? size - 1 then [emptyIndex + 1] else []).    (* Right *)

Definition getNextMoveHint (puzzle : PuzzleState) : option Z :=
  let validMoves := hintMoves puzzle in
  (fold_left (hintStep puzzle) validMoves (None, -1)).1.

(** ** The leaderboard *)

Record LeaderboardEntry := mkEntry {
  username : string;
  time : Z;          (* seconds *)
  moves : Z;
  difficulty : Z;
  date : string
}.

#[global] Instance LeaderboardEntry_eq_dec : EqDecision LeaderboardEntry.
Proof. solve_decision. Defined.

(** The test of the update branch and of the rank filter:
    [a.time < b.time || (a.time === b.time && a.moves < b.moves)]. *)
Definition better (a b : LeaderboardEntry) : bool :=
  (time a <? time b) || ((time a =? time b) && (moves a <? moves b)).

(** The comparator handed to [sort]. *)
Definition compareEntries (a b : LeaderboardEntry) : Z :=
  if negb (time a =? time b) then time a - time b else moves a - moves b.

(** [Array.prototype.sort] is a stable sort: with a consistent comparator its
    result is the one of a stable insertion sort. *)
Fixpoint insertEntry (a : LeaderboardEntry) (l : list LeaderboardEntry)
  : list LeaderboardEntry :=
  match l with
  | [] => [a]
  | b :: l' => if 0 <? compareEntries a b then b :: insertEntry a l' else a :: l
  end.

Definition sortEntries (l : list LeaderboardEntry) : list LeaderboardEntry :=
  foldr insertEntry [] l.

Fixpoint findIndex_from (name : string) (l : list LeaderboardEntry) (i : Z) : Z :=
  match l with
  | [] => -1
  | e :: l' => if decide (username e = name) then i else findIndex_from name l' (i + 1)
  end.

(** [leaderboard.findIndex((e) => e.username === username)] *)
Definition findIndex (name : string) (l : list LeaderboardEntry) : Z :=
  findIndex_from name l 0.

Record SubmitResult := mkResult {
  table : list LeaderboardEntry;   (* the table after the call *)
  saved : bool;                    (* whether [redis.set] is reached *)
  rank : Z;
  message : string
}.

(** The tail of the [/submit-score] handler: sort, keep the first 100, look
    the submitter up. *)
Definition sortAndRank (leaderboard : list LeaderboardEntry) (name : string)
  : SubmitResult :=
  let leaderboard := sortEntries leaderboard in
  let leaderboard := take 100 leaderboard in
  let rank := findIndex name leaderboard + 1 in
  mkResult leaderboard true rank "Score submitted successfully".

(** The part of the [/submit-score] handler between reading the table and
    building the response. *)
Definition submit (leaderboard : list LeaderboardEntry) (entry : LeaderboardEntry)
  : SubmitResult :=
  let existingIndex := findIndex (username entry) leaderboard in
  if 0 <=? existingIndex then
    match leaderboard !! Z.to_nat existingIndex with
    | None => sortAndRank (leaderboard ++ [entry]) (username entry)
    | Some existing =>
        if better entry existing then
          sortAndRank (<[Z.to_nat existingIndex := entry]> leaderboard) (username entry)
        else
          let rank :=
            Z.of_nat (length (filter (fun e => better e existing = true) leaderboard)) + 1 in
          mkResult leaderboard false rank "Your existing score is better"
    end
  else sortAndRank (leaderboard ++ [entry]) (username entry).

(** ** The routes

    The store holds serialized tables; [JSON.parse] after [JSON.stringify] is
    the identity on them, so the store is modelled with the tables
    themselves, an absent key being the empty table.  The handlers run in a
    state that also records the store operations performed.  Failures of the
    store (the [catch] branches, status 500) are not modelled. *)

Inductive RedisOp :=
  | RedisGet (key : string)
  | RedisSet (key : string) (value : list LeaderboardEntry).

Record World := mkWorld {
  redis : gmap string (list LeaderboardEntry);
  trace : list RedisOp
}.

Definition Handler (A : Type) : Type := World → A * World.

Definition ret {A} (a : A) : Handler A := fun w => (a, w).

Definition bind {A B} (m : Handler A) (k : A → Handler B) : Handler B :=
  fun w => let '(a, w) := m w in k a w.

Notation "'do' x <- m ; k" := (bind m (fun x => k))
  (at level 10, x name, m at level 100, k at level 200, only parsing).

Definition redis_get (key : string) : Handler (list LeaderboardEntry) :=
  fun w => (default [] (redis w !! key),
            mkWorld (redis w) (trace w ++ [RedisGet key])).

Definition redis_set (key : string) (value : list LeaderboardEntry) : Handler unit :=
  fun w => (tt, mkWorld (<[key := value]> (redis w)) (trace w ++ [RedisSet key value])).

Inductive Response :=
  | SubmitScoreResponse (rank : Z) (message : string)
  | LeaderboardResponse (entries : list LeaderboardEntry) (date : string) (difficulty : Z)
  | ErrorResponse (code : Z) (message : string).

Record SubmitScoreRequest := mkRequest {
  req_time : Z;
  req_moves : Z;
  req_difficulty : Z
}.

(** [`leaderboard:${date}:${difficulty}`] *)
Definition leaderboardKey (date : string) (difficulty : Z) : string :=
  "leaderboard:" +:+ date +:+ ":" +:+ pretty difficulty.

(** [api.post('/submit-score', ...)]; [currentUsername] is what
    [reddit.getCurrentUsername()] answers and [today] the current date. *)
Definition submitScore (body : SubmitScoreRequest)
    (currentUsername : option string) (today : string) : Handler Response :=
  let time := req_time body in
  let moves := req_moves body in
  let difficulty := req_difficulty body in
  if (time =? 0) || (moves =? 0) || (difficulty =? 0) then
    ret (ErrorResponse 400 "Missing required fields: time, moves, difficulty")
  else
    match currentUsername with
    | None | Some "" => ret (ErrorResponse 401 "Unable to get username")
    | Some username =>
        let entry := mkEntry username time moves difficulty today in
        let leaderboardKey := leaderboardKey today difficulty in
        do leaderboard <- redis_get leaderboardKey;
        let result := submit leaderboard entry in
        if saved result then
          do done <- redis_set leaderboardKey (table result);
          ret (SubmitScoreResponse (rank result) (message result))
        else
          ret (SubmitScoreResponse (rank result) (message result))
    end.

Section LeaderboardRoute.

(** [Number.parseInt] of the platform; [None] is [NaN]. *)
Variable parseInt : string → option Z.

(** [api.get('/leaderboard', ...)]; an absent query parameter is [None]. *)
Definition getLeaderboard (dateQuery difficultyQuery : option string)
    (today : string) : Handler Response :=
  let date := match dateQuery with None | Some "" => today | Some d => d end in
  let difficultyStr :=
    match difficultyQuery with None | Some "" => "3"%string | Some d => d end in
  match parseInt difficultyStr with
  | Some difficulty =>
      if negb (difficulty =? 3) && negb (difficulty =? 4) && negb (difficulty =? 5)
      then ret (ErrorResponse 400 "Invalid difficulty. Must be 3, 4, or 5")
      else
        do leaderboard <- redis_get (leaderboardKey date difficulty);
        ret (LeaderboardResponse leaderboard date difficulty)
  | None => ret (ErrorResponse 400 "Invalid difficulty. Must be 3, 4, or 5")
  end.

End LeaderboardRoute.

(** ** The scheduler *)

(** [ToInt32]: the value of a number as a signed 32-bit integer. *)
Definition toInt32 (x : Z) : Z := (x + 2 ^ 31) mod 2 ^ 32 - 2 ^ 31.

(** The body of the loop of [hashString]:
    [hash = (hash << 5) - hash + char; hash = hash & hash]. *)
Definition hashStep (hash char : Z) : Z :=
  let hash := toInt32 (Z.shiftl (toInt32 hash) 5) - hash + char in
  Z.land (toInt32 hash) (toInt32 hash).

(** The code units of a string whose characters are below 256 (a date is). *)
Definition charCodes (str : string) : list Z :=
  (fun c => Z.of_N (Ascii.N_of_ascii c)) <$> String.list_ascii_of_string str.

Definition hashString (str : string) : Z :=
  Z.abs (fold_left hashStep (charCodes str) 0).

Module Daily.

Record State := mkState {
  imageUrl : string;
  postId : string;
  shuffleSeed : Z;
  date : string
}.

(** What the scheduler reads of a post: [post.id], [post.url],
    [post.preview?.images?.[0]?.source?.url] and [post.thumbnail?.url]. *)
Record Post := mkPost {
  id : string;
  url : string;
  previewUrl : option string;
  thumbnailUrl : option string
}.

Record FetchResult := mkFetch { success : bool; message : string }.

(** What a platform call throws: an [Error] with its message, or a value
    that is not an [Error]. *)
Inductive Thrown := ErrorWith (message : string) | NotAnError.

(** [error instanceof Error ? error.message : 'Unknown error'] *)
Definition errorMessage (error : Thrown) : string :=
  match error with
  | ErrorWith message => message
  | NotAnError => "Unknown error"
  end.

(** The platform calls of one run of [fetchDailyPuzzle], in the order of
    the source: [redis.get] of the state of the day, [getHotPosts] with
    [listing.all()], [redis.set] of the state of the day and [redis.set] of
    the current state.  Each returns ([None]) or throws; a call that throws
    is taken to have left the store as it was. *)
Record Platform := mkPlatform {
  redisGet : option Thrown;
  listingAll : option Thrown;
  redisSetToday : option Thrown;
  redisSetCurrent : option Thrown
}.

Inductive Response :=
  | DailyStateResponse (imageUrl postId : string) (shuffleSeed : Z) (date : string)
  | ErrorResponse (code : Z) (message : string).

(** The daily keys of the store, [JSON.parse] after [JSON.stringify] being
    the identity on daily states; their prefix keeps them apart from the
    leaderboard keys. *)
Definition todayKey (today : string) : string := "daily_state:" +:+ today.

Definition currentKey : string := "daily_state:current".

(** A string in a condition is true when it is defined and not empty. *)
Definition truthy (s : option string) : bool :=
  match s with Some s => negb (String.eqb s "") | None => false end.

Section Scheduler.

(** [/\.(jpg|jpeg|png|gif|webp)$/i.test] and [.replace(/&amp;/g, '&')],
    platform functions on strings. *)
Variable isImageFile : string → bool.
Variable decodeAmp : string → string.

(** The image of a post: the preview first, then the post's own URL when it
    names an image file, the thumbnail last. *)
Definition pickImageUrl (post : Post) : option string :=
  if truthy (previewUrl post) then decodeAmp <$> previewUrl post
  else if truthy (Some (url post)) && isImageFile (url post) then Some (url post)
  else if truthy (thumbnailUrl post)
          && negb (bool_decide (thumbnailUrl post = Some "self"%string))
          && negb (bool_decide (thumbnailUrl post = Some "default"%string))
       then thumbnailUrl post
  else None.

(** [fetchDailyPuzzle]; [posts] is what [reddit.getHotPosts(...).all()]
    answers when it returns.  An exception of a platform call ends the run
    in the [catch] branch, which answers the error's message and leaves in
    the store what was written before. *)
Definition fetchDailyPuzzle (platform : Platform) (today : string)
    (posts : list Post) (store : gmap string State)
  : FetchResult * gmap string State :=
  match redisGet platform with
  | Some error => (mkFetch false (errorMessage error), store)
  | None =>
  match store !! todayKey today with
  | Some _ =>
      (mkFetch true ("Daily puzzle already exists for " +:+ today), store)
  | None =>
  match listingAll platform with
  | Some error => (mkFetch false (errorMessage error), store)
  | None =>
  match posts !! 0%nat with
  | None => (mkFetch false "No hot posts found in r/memes", store)
  | Some post =>
      let imageUrl := pickImageUrl post in
      if negb (truthy imageUrl) then
        (mkFetch false "Post has no image URL", store)
      else
        let seed := hashString today in
        let dailyState := mkState (default "" imageUrl) (id post) seed today in
        match redisSetToday platform with
        | Some error => (mkFetch false (errorMessage error), store)
        | None =>
        let store := <[todayKey today := dailyState]> store in
        match redisSetCurrent platform with
        | Some error => (mkFetch false (errorMessage error), store)
        | None =>
        let store := <[currentKey := dailyState]> store in
        (mkFetch true ("Daily puzzle fetched for " +:+ today), store)
        end
        end
  end
  end
  end
  end.

End Scheduler.

(** [api.get('/daily-state', ...)] *)
Definition getDailyState (today : string) (store : gmap string State) : Response :=
  let dailyStateStr := store !! todayKey today in
  let dailyStateStr :=
    match dailyStateStr with
    | None => store !! currentKey
    | Some _ => dailyStateStr
    end in
  match dailyStateStr with
  | None =>
      ErrorResponse 404
        "Daily puzzle not yet initialized. Please wait for the scheduler to run."
  | Some dailyState =>
      DailyStateResponse (imageUrl dailyState) (postId dailyState)
        (shuffleSeed dailyState) (date dailyState)
  end.

End Daily.

(** ** The game client *)

Module Client.

(** The fields of [gameState] that [handleTileClick] and [resetPuzzle] read
    and write, and whether the timer interval is set.  The page elements
    they update are not modelled. *)
Record GameState := mkGame {
  puzzle : option PuzzleState;
  dailyState : option Daily.State;
  difficulty : Z;
  moves : Z;
  isSolvedFlag : bool;
  hintActive : bool;
  timerRunning : bool
}.

Definition handleTileClick (gameState : GameState) (tileIndex : Z) : GameState :=
  match puzzle gameState with
  | None => gameState
  | Some current =>
      if isSolvedFlag gameState then gameState
      else
        match makeMove current tileIndex with
        | None => gameState                                   (* Invalid move *)
        | Some newPuzzle =>
            let moves := moves gameState + 1 in
            (* startTimer() on the first move *)
            let timerRunning :=
              if moves =? 1 then true else timerRunning gameState in
            if isSolved newPuzzle then
              (* isSolved = true; stopTimer(); showSolvedOverlay() *)
              mkGame (Some newPuzzle) (dailyState gameState) (difficulty gameState)
                moves true (hintActive gameState) false
            else
              (* renderPuzzle() clears the hint, unless it returns at once
                 for want of a daily state *)
              let hintActive :=
                match dailyState gameState with
                | None => hintActive gameState
                | Some _ => false
                end in
              mkGame (Some newPuzzle) (dailyState gameState) (difficulty gameState)
                moves false hintActive timerRunning
        end
  end.

Definition resetPuzzle (gameState : GameState) : GameState :=
  match dailyState gameState with
  | None => gameState
  | Some daily =>
      mkGame
        (Some (createShuffledPuzzle (difficulty gameState) (Daily.shuffleSeed daily)))
        (dailyState gameState) (difficulty gameState) 0 false false false
  end.

End Client.

(** * Specification vocabulary *)

(** The board of a [size] x [size] puzzle: every tile [0 .. size^2 - 1] once,
    no slot undefined. *)
Definition isBoard (size : Z) (g : jsarray) : Prop :=
  JsArray.elems g ≡ₚ Some <$> seqZ 0 (size * size).

(** The invariant of a puzzle state: the grid is a board and the slot at
    [emptyIndex] holds the empty tile [size^2 - 1]. *)
Definition PuzzleInv (p : PuzzleState) : Prop :=
  isBoard (size p) (grid p) ∧
  0 <= emptyIndex p ∧
  JsArray.elems (grid p) !! Z.to_nat (emptyIndex p) = Some (Some (size p * size p - 1)).

(** Cells [a] and [b] of the [size] x [size] grid are orthogonal neighbours:
    both are cells, and their rows and columns differ by one step in all. *)
Definition orthAdjacent (size a b : Z) : bool :=
  (0 <=? a) && (a <? size * size) && (0 <=? b) && (b <? size * size)
  && (Z.abs (a / size - b / size) + Z.abs (a mod size - b mod size) =? 1).

(** The grid distance between the cells [a] and [b], computed as the hint
    heuristic does. *)
Definition manhattan (size a b : Z) : Z :=
  Z.abs (a / size - b / size) + Z.abs (Z.rem a size - Z.rem b size).

(** A 3 x 3 state, three tiles out of place, whose two movable tiles (at the
    indices 5 and 7) are both at home. *)
Definition homeNeighbours : PuzzleState :=
  mkPuzzle (JsArray.of_list [1; 2; 0; 3; 4; 5; 6; 7; 8]) 8 3.

(** The order of the leaderboard: time first, moves to break ties. *)
Definition lexLt (a b : LeaderboardEntry) : Prop :=
  time a < time b ∨ (time a = time b ∧ moves a < moves b).

Definition lexLe (a b : LeaderboardEntry) : Prop :=
  time a < time b ∨ (time a = time b ∧ moves a <= moves b).

#[global] Instance lexLt_dec : RelDecision lexLt.
Proof. unfold lexLt. solve_decision. Defined.

(** The number of entries of [l] strictly better than [existing]. *)
Definition betterCount (existing : LeaderboardEntry) (l : list LeaderboardEntry) : Z :=
  Z.of_nat (length (filter (fun e => lexLt e existing) l)).

(** [e] is the first entry of [l] under the name [name], at index [i]. *)
Definition firstEntryOf (name : string) (l : list LeaderboardEntry)
    (i : nat) (e : LeaderboardEntry) : Prop :=
  l !! i = Some e ∧ username e = name ∧
  ∀ j e', (j < i)%nat → l !! j = Some e' → username e' ≠ name.

(** The tiles of a grid in reading order: the defined entries other than
    the empty tile. *)
Definition tiles (empty : Z) (l : list (option Z)) : list Z :=
  omap (fun o => o ≫= fun v => if v =? empty then None else Some v) l.

Fixpoint countBelow (v : Z) (l : list Z) : Z :=
  match l with
  | [] => 0
  | x :: l' => (if x <? v then 1 else 0) + countBelow v l'
  end.

Fixpoint countAbove (v : Z) (l : list Z) : Z :=
  match l with
  | [] => 0
  | x :: l' => (if v <? x then 1 else 0) + countAbove v l'
  end.

(** The number of pairs of a list of numbers that are out of order. *)
Fixpoint inversions (l : list Z) : Z :=
  match l with
  | [] => 0
  | v :: l' => countBelow v l' + inversions l'
  end.

(** A sequence of clicks played with [makeMove], each of them a valid move. *)
Fixpoint playMoves (p : PuzzleState) (ts : list Z) : option PuzzleState :=
  match ts with
  | [] => Some p
  | t :: ts' => p' ← makeMove p t; playMoves p' ts'
  end.

(** The shape of a stored table: sorted by (time, moves), one entry per
    player, at most 100 entries. *)
Definition TableInv (t : list LeaderboardEntry) : Prop :=
  StronglySorted lexLe t ∧ NoDup (username <$> t) ∧ (length t <= 100)%nat.

(** A table of 100 players, all with the score (10, 5). *)
Definition fullTable : list LeaderboardEntry :=
  (fun i : nat => mkEntry (pretty i) 10 5 3 "2025-01-01") <$> seq 0 100.

(** What holds of the client's game state between two clicks: the puzzle
    satisfies the invariant of puzzle states, the solved flag is only set on
    a solved puzzle, and the timer is stopped once the flag is set. *)
Definition GameInv (gs : Client.GameState) : Prop :=
  (∀ p, Client.puzzle gs = Some p → PuzzleInv p) ∧
  (Client.isSolvedFlag gs = true →
   Client.timerRunning gs = false ∧
   ∃ p, Client.puzzle gs = Some p ∧ isSolved p = true).

(** * Properties *)

(** ** Arrays *)

Section ArrayFacts.

Implicit Types (a : jsarray) (k : Z) (v : option Z) (l : list (option Z)).

Lemma get_elem a k x :
  0 <= k → JsArray.elems a !! Z.to_nat k = Some x → JsArray.get a k = x.
Proof.
  intros Hk Hx. unfold JsArray.get.
  destruct (Z.leb_spec 0 k); [|lia]. by rewrite Hx.
Qed.

Lemma get_Some_elem a k x :
  JsArray.props a = ∅ → JsArray.get a k = Some x →
  0 <= k ∧ JsArray.elems a !! Z.to_nat k = Some (Some x).
Proof.
  unfold JsArray.get. intros Hp.
  destruct (Z.leb_spec 0 k).
  - destruct (JsArray.elems a !! Z.to_nat k) as [[y|]|]; simpl; naive_solver.
  - rewrite Hp, lookup_empty. discriminate.
Qed.

Lemma set_elem a k v :
  0 <= k < JsArray.length a →
  JsArray.set a k v = JsArray.Make (<[Z.to_nat k := v]> (JsArray.elems a)) (JsArray.props a).
Proof.
  intros [H0 H1]. unfold JsArray.set.
  destruct (Z.ltb_spec k 0); [lia|].
  destruct (Z.ltb_spec k (JsArray.length a)); [done|lia].
Qed.

Lemma lookup_lt_length a k x :
  0 <= k → JsArray.elems a !! Z.to_nat k = Some x → 0 <= k < JsArray.length a.
Proof.
  intros Hk Hx. apply lookup_lt_Some in Hx. unfold JsArray.length. lia.
Qed.

(** Overwriting one slot trades the old content for the new one. *)
Lemma insert_trade l (i : nat) x y :
  l !! i = Some x → y :: l ≡ₚ x :: <[i := y]> l.
Proof.
  revert i. induction l as [|z l IH]; intros [|i] Hi; simplify_eq/=.
  - apply Permutation_swap.
  - rewrite (Permutation_swap z y l), (IH i Hi).
    apply Permutation_swap.
Qed.

(** The exchange of two slots, written as the two assignments of the
    source. *)
Lemma exchange_Permutation l (i j : nat) x y :
  l !! i = Some x → l !! j = Some y →
  <[j := x]> (<[i := y]> l) ≡ₚ l.
Proof.
  intros Hi Hj.
  destruct (decide (i = j)) as [->|Hne].
  - simplify_eq. rewrite list_insert_insert_eq. by rewrite list_insert_id.
  - assert (Hj' : <[i := y]> l !! j = Some y) by by rewrite list_lookup_insert_ne.
    apply (Permutation_cons_inv (a := y)).
    rewrite <- (insert_trade _ _ _ x Hj').
    symmetry. by apply insert_trade.
Qed.

Lemma index_from_found l (x : Z) (i : Z) :
  Some x ∈ l →
  i <= JsArray.index_from l x i ∧
  l !! Z.to_nat (JsArray.index_from l x i - i) = Some (Some x).
Proof.
  intros Hin. revert i. induction l as [|y l IH]; intros i.
  - by apply elem_of_nil in Hin.
  - simpl. destruct (decide (y = Some x)) as [->|Hne].
    + rewrite Z.sub_diag. split; [lia|done].
    + apply elem_of_cons in Hin as [?|Hin]; [congruence|].
      destruct (IH Hin (i + 1)) as [Hle Hl]. split; [lia|].
      replace (Z.to_nat (JsArray.index_from l x (i + 1) - i))
        with (S (Z.to_nat (JsArray.index_from l x (i + 1) - (i + 1)))) by lia.
      done.
Qed.

Lemma indexOf_found a (x : Z) :
  Some x ∈ JsArray.elems a →
  0 <= JsArray.indexOf a x ∧
  JsArray.elems a !! Z.to_nat (JsArray.indexOf a x) = Some (Some x).
Proof.
  intros Hin. destruct (index_from_found _ _ 0 Hin) as [H0 Hl].
  unfold JsArray.indexOf. by rewrite Z.sub_0_r in Hl.
Qed.

End ArrayFacts.

(** ** The generator and the shuffle on non-negative seeds *)

Lemma next_nonneg (rng : SeededRandom) :
  0 <= rng →
  ∃ s, next rng = (s # 2 ^ 32, s)%Q ∧ 0 <= s < 2 ^ 32.
Proof.
  intros Hrng. unfold next. eexists; split; [reflexivity|].
  rewrite Z.rem_mod_nonneg by lia.
  apply Z.mod_pos_bound. lia.
Qed.

(** [Math.floor(rng.next() * (i + 1))] is an index between [0] and [i]. *)
Lemma floor_index (s i : Z) :
  0 <= s < 2 ^ 32 → 0 <= i →
  0 <= Qfloor ((s # 2 ^ 32) * inject_Z (i + 1)) <= i.
Proof.
  intros Hs Hi. unfold Qfloor, Qmult, inject_Z; simpl Qnum; simpl Qden.
  change (Z.pos (2 ^ 32 * 1)) with (2 ^ 32).
  split.
  - apply Z.div_pos; nia.
  - apply Z.lt_succ_r, Z.div_lt_upper_bound; nia.
Qed.

Lemma shuffle_step_Permutation (i : Z) (a : jsarray) (rng : SeededRandom) :
  0 <= rng → 0 <= i < JsArray.length a →
  ∃ a' rng', shuffle_step i a rng = (a', rng') ∧ 0 <= rng' ∧
             JsArray.elems a' ≡ₚ JsArray.elems a ∧
             JsArray.props a' = JsArray.props a.
Proof.
  intros Hrng Hi. unfold shuffle_step.
  destruct (next_nonneg rng Hrng) as (s & -> & Hs).
  pose proof (floor_index s i Hs (proj1 Hi)) as Hj.
  set (j := Qfloor _) in *.
  destruct (lookup_lt_is_Some_2 (JsArray.elems a) (Z.to_nat i)) as [x Hx];
    [unfold JsArray.length in Hi; lia|].
  destruct (lookup_lt_is_Some_2 (JsArray.elems a) (Z.to_nat j)) as [y Hy];
    [unfold JsArray.length in Hi; lia|].
  rewrite (get_elem a i x), (get_elem a j y) by (done || lia).
  rewrite (set_elem a i) by done.
  rewrite set_elem by (unfold JsArray.length in *; simpl; rewrite length_insert; lia).
  eexists _, _. split; [reflexivity|]. simpl.
  split; [lia|]. split; [|done].
  by apply exchange_Permutation.
Qed.

Lemma shuffle_loop_Permutation (n : nat) (a : jsarray) (rng : SeededRandom) :
  0 <= rng → Z.of_nat n < JsArray.length a →
  ∃ a' rng', shuffle_loop n a rng = (a', rng') ∧ 0 <= rng' ∧
             JsArray.elems a' ≡ₚ JsArray.elems a ∧
             JsArray.props a' = JsArray.props a.
Proof.
  revert a rng. induction n as [|n IH]; intros a rng Hrng Hn.
  - by exists a, rng.
  - cbn [shuffle_loop].
    destruct (shuffle_step_Permutation (Z.of_nat (S n)) a rng) as (a1 & rng1 & -> & H1 & Hp & Hq);
      [done|lia|].
    assert (Hlen : JsArray.length a1 = JsArray.length a)
      by (unfold JsArray.length; by rewrite Hp).
    destruct (IH a1 rng1) as (a2 & rng2 & -> & H2 & Hp2 & Hq2); [done|lia|].
    exists a2, rng2. split; [done|]. split; [done|].
    split; [by rewrite Hp2|congruence].
Qed.

Lemma seededShuffle_Permutation (a : jsarray) (rng : SeededRandom) :
  0 <= rng →
  ∃ a' rng', seededShuffle a rng = (a', rng') ∧ 0 <= rng' ∧
             JsArray.elems a' ≡ₚ JsArray.elems a ∧ JsArray.props a' = ∅.
Proof.
  intros Hrng. unfold seededShuffle.
  destruct (decide (JsArray.length a = 0)) as [Hz|Hnz].
  - unfold JsArray.length in *. simpl. rewrite Hz. simpl. by eexists _, _.
  - destruct (shuffle_loop_Permutation
                (Z.to_nat (JsArray.length (JsArray.spread a) - 1))
                (JsArray.spread a) rng) as (a' & rng' & -> & ? & ? & ?);
      [done|unfold JsArray.length in *; simpl; lia|].
    by exists a', rng'.
Qed.

(** The generator state stays in the range on which its arithmetic is
    exact. *)
Lemma next_state_range (rng : SeededRandom) :
  0 <= rng <= maxExactSeed → 0 <= (next rng).2 <= maxExactSeed.
Proof.
  intros [Hrng _]. destruct (next_nonneg rng Hrng) as (s & -> & Hs).
  unfold maxExactSeed. simpl. lia.
Qed.

Lemma shuffle_step_state (i : Z) (a : jsarray) (rng : SeededRandom) :
  (shuffle_step i a rng).2 = (next rng).2.
Proof. reflexivity. Qed.

Lemma shuffle_loop_state (n : nat) (a : jsarray) (rng : SeededRandom) :
  0 <= rng <= maxExactSeed → 0 <= (shuffle_loop n a rng).2 <= maxExactSeed.
Proof.
  revert a rng. induction n as [|n IH]; intros a rng Hrng; [done|].
  cbn [shuffle_loop].
  pose proof (shuffle_step_state (Z.of_nat (S n)) a rng) as Hstep.
  destruct (shuffle_step (Z.of_nat (S n)) a rng) as [a1 rng1].
  apply IH. cbn [snd] in Hstep. rewrite Hstep. by apply next_state_range.
Qed.

Lemma seededShuffle_state (a : jsarray) (rng : SeededRandom) :
  0 <= rng <= maxExactSeed → 0 <= (seededShuffle a rng).2 <= maxExactSeed.
Proof. apply shuffle_loop_state. Qed.

(** ** Shuffled puzzles *)

Lemma fallbackGrid_board (size : Z) :
  size = 3 ∨ size = 4 ∨ size = 5 → isBoard size (fallbackGrid (size * size)).
Proof.
  unfold isBoard.
  intros [Hs|[Hs|Hs]]; subst size; vm_compute; repeat apply perm_skip; apply perm_swap.
Qed.

Lemma fallbackGrid_odd_solvable (size : Z) :
  size = 3 ∨ size = 5 → isSolvable (fallbackGrid (size * size)) size = true.
Proof. by intros [Hs|Hs]; subst size. Qed.

(** The loop ends on a shuffled board that passed the test or on the
    fallback grid. *)
Lemma shuffleUntilSolvable_cases (budget : nat) (size : Z) (rng : SeededRandom) :
  0 <= rng →
  let g := shuffleUntilSolvable budget size rng in
  (isBoard size g ∧ isSolvable g size = true) ∨ g = fallbackGrid (size * size).
Proof.
  revert rng. induction budget as [|budget IH]; intros rng Hrng; cbn [shuffleUntilSolvable].
  - destruct (seededShuffle _ rng). by right.
  - destruct (seededShuffle_Permutation (solvedGrid (size * size)) rng Hrng)
      as (g & rng' & -> & Hrng' & Hperm & _).
    destruct (isSolvable g size) eqn:Hsolv.
    + left. by split.
    + by apply IH.
Qed.

Lemma board_has_empty_tile (size : Z) (g : jsarray) :
  0 < size → isBoard size g → Some (size * size - 1) ∈ JsArray.elems g.
Proof.
  intros Hsize Hg. rewrite Hg. apply list_elem_of_fmap.
  exists (size * size - 1). split; [done|]. apply elem_of_seqZ. nia.
Qed.

Lemma createShuffledPuzzle_inv (size seed : Z) :
  0 < size → isBoard size (grid (createShuffledPuzzle size seed)) →
  PuzzleInv (createShuffledPuzzle size seed).
Proof.
  intros Hsize Hb. split; [done|].
  by apply indexOf_found, board_has_empty_tile.
Qed.

(** ** Moves *)

Lemma makeMove_Some_inv (p p' : PuzzleState) (t : Z) :
  makeMove p t = Some p' →
  isValidMove p t = true ∧
  ∃ tv ev,
    (0 <= t ∧ JsArray.elems (grid p) !! Z.to_nat t = Some (Some tv)) ∧
    (0 <= emptyIndex p ∧
     JsArray.elems (grid p) !! Z.to_nat (emptyIndex p) = Some (Some ev)) ∧
    p' = mkPuzzle
           (JsArray.Make
              (<[Z.to_nat (emptyIndex p) := Some tv]>
                 (<[Z.to_nat t := Some ev]> (JsArray.elems (grid p)))) ∅)
           t (size p).
Proof.
  unfold makeMove. destruct (isValidMove p t); [|done]. simpl.
  destruct (JsArray.get _ t) as [tv|] eqn:Ht; [|done].
  destruct (JsArray.get _ (emptyIndex p)) as [ev|] eqn:He; [|done].
  intros [= <-]. split; [done|]. exists tv, ev.
  apply get_Some_elem in Ht as [Ht0 Ht]; [|done].
  apply get_Some_elem in He as [He0 He]; [|done].
  simpl in Ht, He. repeat split; try done.
  pose proof (lookup_lt_length (JsArray.spread (grid p)) _ _ Ht0 Ht) as Htl.
  pose proof (lookup_lt_length (JsArray.spread (grid p)) _ _ He0 He) as Hel.
  rewrite (set_elem (JsArray.spread (grid p)) t) by done.
  rewrite set_elem by (unfold JsArray.length in *; simpl in *; rewrite length_insert; lia).
  done.
Qed.

Lemma makeMove_Some_intro (p : PuzzleState) (t tv ev : Z) :
  isValidMove p t = true →
  0 <= t → JsArray.elems (grid p) !! Z.to_nat t = Some (Some tv) →
  0 <= emptyIndex p →
  JsArray.elems (grid p) !! Z.to_nat (emptyIndex p) = Some (Some ev) →
  makeMove p t =
    Some (mkPuzzle
            (JsArray.Make
               (<[Z.to_nat (emptyIndex p) := Some tv]>
                  (<[Z.to_nat t := Some ev]> (JsArray.elems (grid p)))) ∅)
            t (size p)).
Proof.
  intros Hv Ht0 Ht He0 He. unfold makeMove. rewrite Hv. simpl.
  rewrite (get_elem (JsArray.spread (grid p)) t (Some tv)) by done.
  rewrite (get_elem (JsArray.spread (grid p)) (emptyIndex p) (Some ev)) by done.
  pose proof (lookup_lt_length (JsArray.spread (grid p)) _ _ Ht0 Ht) as Htl.
  pose proof (lookup_lt_length (JsArray.spread (grid p)) _ _ He0 He) as Hel.
  rewrite (set_elem (JsArray.spread (grid p)) t) by done.
  rewrite set_elem by (unfold JsArray.length in *; simpl in *; rewrite length_insert; lia).
  done.
Qed.

Lemma makeMove_PuzzleInv (p p' : PuzzleState) (t : Z) :
  PuzzleInv p → makeMove p t = Some p' → PuzzleInv p'.
Proof.
  intros (Hb & He0 & He) Hm.
  apply makeMove_Some_inv in Hm as (_ & tv & ev & [Ht0 Ht] & [_ He'] & ->).
  assert (ev = size p * size p - 1) as -> by congruence.
  split; [|split]; simpl.
  - unfold isBoard in *. simpl. rewrite <- Hb.
    by apply exchange_Permutation.
  - done.
  - destruct (decide (Z.to_nat (emptyIndex p) = Z.to_nat t)) as [Heq|Hne].
    + rewrite Heq in *. rewrite list_lookup_insert_eq; [congruence|].
      rewrite length_insert. by eapply lookup_lt_Some.
    + rewrite list_lookup_insert_ne by done.
      rewrite list_lookup_insert_eq; [done|]. by eapply lookup_lt_Some.
Qed.


(** X27.  For the sizes 3 and 5 and every seed in the exact range of the
    generator, [createShuffledPuzzle] returns a board, a permutation of
    [0 .. size^2 - 1], that passes [isSolvable]: the fallback grid passes
    the odd-size test as well. *)
Theorem createShuffledPuzzle_odd_sizes (size seed : Z) :
  size = 3 ∨ size = 5 → 0 <= seed <= maxExactSeed →
  let p := createShuffledPuzzle size seed in
  isBoard size (grid p) ∧ isSolvable (grid p) size = true.
Proof.
  intros Hsize [Hseed _]. unfold createShuffledPuzzle, createSeededRandom. cbn [grid].
  destruct (shuffleUntilSolvable_cases 100 size seed Hseed) as [[Hb Hs]|Hf]; [done|].
  rewrite Hf. split; [apply fallbackGrid_board; lia|].
  destruct Hsize as [Hs|Hs]; subst size; vm_compute; reflexivity.
Qed.

Lemma createShuffledPuzzle_odd_sizes_witness :
  isBoard 3 (grid (createShuffledPuzzle 3 42)) ∧
  isSolvable (grid (createShuffledPuzzle 3 42)) 3 = true.
Proof.
  apply (createShuffledPuzzle_odd_sizes 3 42); [by left|unfold maxExactSeed; lia].
Defined.

(** C4 (amended).  The invariant holds for the state [createShuffledPuzzle]
    returns, for every size in {3,4,5} and every seed from 0 to 5411272429
    (the range on which the generator's arithmetic is exact), and every
    state [makeMove] returns from a state satisfying the invariant satisfies
    it too. *)
Theorem PuzzleInv_created_and_preserved :
  (∀ size seed, size = 3 ∨ size = 4 ∨ size = 5 → 0 <= seed <= maxExactSeed →
                PuzzleInv (createShuffledPuzzle size seed)) ∧
  (∀ p t p', PuzzleInv p → makeMove p t = Some p' → PuzzleInv p').
Proof.
  split.
  - intros size seed Hsize [Hseed _].
    apply createShuffledPuzzle_inv; [lia|].
    destruct (shuffleUntilSolvable_cases 100 size seed Hseed) as [[Hb _]|Hf]; [done|].
    unfold createShuffledPuzzle, createSeededRandom. cbn [grid].
    rewrite Hf. by apply fallbackGrid_board.
  - intros p t p'. apply makeMove_PuzzleInv.
Qed.

(** C4 fails on a negative seed: the state returned for size 4 and seed -700
    has undefined slots. *)
Lemma createShuffledPuzzle_negative_seed_inv :
  ¬ PuzzleInv (createShuffledPuzzle 4 (-700)).
Proof.
  intros [Hb _]. unfold isBoard in Hb.
  assert (Hg : JsArray.elems (grid (createShuffledPuzzle 4 (-700))) !! 7%nat = Some None)
    by (vm_compute; reflexivity).
  apply list_elem_of_lookup_2 in Hg. rewrite Hb in Hg.
  apply list_elem_of_fmap in Hg as (x & Hx & _). discriminate.
Qed.

(** ** Adjacency *)

Lemma orthAdjacent_spec (size a b : Z) :
  orthAdjacent size a b = true ↔
  0 <= a < size * size ∧ 0 <= b < size * size ∧
  Z.abs (a / size - b / size) + Z.abs (a mod size - b mod size) = 1.
Proof.
  unfold orthAdjacent.
  rewrite !andb_true_iff, !Z.leb_le, !Z.ltb_lt, Z.eqb_eq. tauto.
Qed.

Lemma orthAdjacent_sym (size a b : Z) :
  orthAdjacent size a b = orthAdjacent size b a.
Proof.
  apply eq_true_iff_eq. rewrite !orthAdjacent_spec.
  replace (Z.abs (b / size - a / size)) with (Z.abs (a / size - b / size)) by lia.
  replace (Z.abs (b mod size - a mod size)) with (Z.abs (a mod size - b mod size)) by lia.
  tauto.
Qed.

Lemma cell_coordinates (size a q r : Z) :
  0 <= r < size → a = size * q + r → a / size = q ∧ a mod size = r.
Proof.
  intros Hr ->. split.
  - symmetry. by apply (Z.div_unique_pos _ _ q r).
  - symmetry. by apply (Z.mod_unique_pos _ _ q r).
Qed.

Lemma elem_of_getAdjacentIndices (index size e : Z) :
  e ∈ getAdjacentIndices index size ↔
  (0 < index / size ∧ e = index - size) ∨
  (index / size < size - 1 ∧ e = index + size) ∨
  (0 < Z.rem index size ∧ e = index - 1) ∨
  (Z.rem index size < size - 1 ∧ e = index + 1).
Proof.
  unfold getAdjacentIndices. rewrite !elem_of_app.
  repeat match goal with
         | |- context [ (?x <? ?y) ] => destruct (Z.ltb_spec x y)
         end;
    rewrite ?list_elem_of_singleton, ?elem_of_nil; intuition lia.
Qed.

(** On the cells of the grid, the neighbours [getAdjacentIndices] lists are
    the orthogonal neighbours. *)
Lemma getAdjacentIndices_cells (size t e : Z) :
  0 < size → 0 <= t < size * size →
  e ∈ getAdjacentIndices t size ↔ orthAdjacent size t e = true.
Proof.
  intros Hsize Ht.
  rewrite elem_of_getAdjacentIndices, orthAdjacent_spec.
  rewrite Z.rem_mod_nonneg by lia.
  pose proof (Z.div_mod t size ltac:(lia)) as Hdm.
  pose proof (Z.mod_pos_bound t size Hsize) as Hr.
  set (q := t / size) in *. set (r := t mod size) in *.
  assert (Hq : 0 <= q < size) by nia.
  split.
  - intros [[Hg ->]|[[Hg ->]|[[Hg ->]|[Hg ->]]]].
    + destruct (cell_coordinates size (t - size) (q - 1) r) as [-> ->]; [lia|lia|]. nia.
    + destruct (cell_coordinates size (t + size) (q + 1) r) as [-> ->]; [lia|lia|]. nia.
    + destruct (cell_coordinates size (t - 1) q (r - 1)) as [-> ->]; [lia|lia|]. nia.
    + destruct (cell_coordinates size (t + 1) q (r + 1)) as [-> ->]; [lia|lia|]. nia.
  - intros (_ & He & Hd).
    pose proof (Z.div_mod e size ltac:(lia)) as Hdm'.
    pose proof (Z.mod_pos_bound e size Hsize) as Hr'.
    set (q' := e / size) in *. set (r' := e mod size) in *.
    assert (Hq' : 0 <= q' < size) by nia.
    assert ((q' = q - 1 ∧ r' = r) ∨ (q' = q + 1 ∧ r' = r) ∨
            (q' = q ∧ r' = r - 1) ∨ (q' = q ∧ r' = r + 1)) as Hcases by lia.
    destruct Hcases as [[-> ->]|[[-> ->]|[[-> ->]|[-> ->]]]].
    + left. split; lia.
    + right; left. split; lia.
    + right; right; left. split; lia.
    + right; right; right. split; lia.
Qed.

Lemma isValidMove_cells (p : PuzzleState) (t : Z) :
  0 < size p → 0 <= t < size p * size p →
  isValidMove p t = orthAdjacent (size p) t (emptyIndex p).
Proof.
  intros Hsize Ht. apply eq_true_iff_eq.
  unfold isValidMove. rewrite bool_decide_eq_true.
  by apply getAdjacentIndices_cells.
Qed.


(** ** Moves on array objects refine moves on values *)

Lemma alloc_fresh (a : jsarray) (store : gmap positive jsarray) :
  ∃ r, Ref.alloc a store = (r, <[r := a]> store) ∧ store !! r = None.
Proof.
  exists (fresh (dom store)). split; [done|].
  apply not_elem_of_dom, is_fresh.
Qed.

(** [makeMoveRef] answers as [makeMove] does on the array the state refers
    to, puts the new grid in a new object, and leaves every object of the
    caller's store as it was. *)
Lemma makeMoveRef_refines (store : gmap positive jsarray) (p : Ref.PuzzleState)
    (a : jsarray) (t : Z) :
  store !! Ref.grid p = Some a →
  ∃ res store',
    Ref.makeMoveRef p t store = (res, store') ∧
    (∀ r b, store !! r = Some b → store' !! r = Some b) ∧
    match makeMove (mkPuzzle a (Ref.emptyIndex p) (Ref.size p)) t with
    | None => res = None
    | Some p' =>
        ∃ r, res = Some (Ref.mkPuzzle r (emptyIndex p') (size p')) ∧
             store' !! r = Some (grid p')
    end.
Proof.
  intros Ha. unfold Ref.makeMoveRef, makeMove.
  change (Ref.isValidMove p t)
    with (isValidMove (mkPuzzle a (Ref.emptyIndex p) (Ref.size p)) t).
  destruct (isValidMove _ t); cbn [negb]; [|by exists None, store].
  rewrite Ha.
  destruct (alloc_fresh (JsArray.spread a) store) as (r & -> & Hr).
  assert (Hold : ∀ r0 b, store !! r0 = Some b →
                         <[r := JsArray.spread a]> store !! r0 = Some b).
  { intros r0 b Hb. rewrite lookup_insert_ne; [done|congruence]. }
  unfold Ref.read. rewrite !lookup_insert_eq. simpl.
  destruct (JsArray.get (JsArray.spread a) t) as [tv|];
    [|by eexists None, _].
  destruct (JsArray.get (JsArray.spread a) (Ref.emptyIndex p)) as [ev|];
    [|by eexists None, _].
  eexists _, _. split; [reflexivity|]. split.
  - intros r0 b Hb. unfold Ref.assign.
    rewrite !lookup_alter_ne by congruence. by apply Hold.
  - exists r. split; [done|]. unfold Ref.assign.
    by rewrite !lookup_alter_eq, lookup_insert_eq.
Qed.

Lemma board_length (size : Z) (g : jsarray) :
  0 <= size → isBoard size g → JsArray.length g = size * size.
Proof.
  intros Hsize Hb. unfold JsArray.length.
  rewrite Hb, length_fmap, length_seqZ. nia.
Qed.

Lemma board_lookup (size : Z) (g : jsarray) (k : Z) :
  isBoard size g → 0 <= k < JsArray.length g →
  ∃ v, JsArray.elems g !! Z.to_nat k = Some (Some v).
Proof.
  intros Hb Hk.
  destruct (lookup_lt_is_Some_2 (JsArray.elems g) (Z.to_nat k)) as [x Hx];
    [unfold JsArray.length in Hk; lia|].
  pose proof (list_elem_of_lookup_2 _ _ _ Hx) as Hin.
  rewrite Hb in Hin. apply list_elem_of_fmap in Hin as (v & -> & _).
  by exists v.
Qed.

(** C3.  On a state whose grid has [size^2] slots, [makeMove] with a
    [tileIndex] that is not an orthogonal neighbour of [emptyIndex], any
    index that is not a cell of the grid included, returns [null], and the
    array the state refers to, like every other object of the caller, is
    unchanged. *)
Theorem makeMove_not_adjacent (store : gmap positive jsarray)
    (p : Ref.PuzzleState) (a : jsarray) (t : Z) :
  store !! Ref.grid p = Some a →
  0 < Ref.size p → JsArray.length a = Ref.size p * Ref.size p →
  orthAdjacent (Ref.size p) t (Ref.emptyIndex p) = false →
  makeMove (mkPuzzle a (Ref.emptyIndex p) (Ref.size p)) t = None ∧
  ∃ store', Ref.makeMoveRef p t store = (None, store') ∧
            store' !! Ref.grid p = Some a ∧
            (∀ r b, store !! r = Some b → store' !! r = Some b).
Proof.
  intros Ha Hsize Hlen Hadj.
  assert (Hnone : makeMove (mkPuzzle a (Ref.emptyIndex p) (Ref.size p)) t = None).
  { destruct (makeMove _ t) as [p'|] eqn:Hm; [|done].
    apply makeMove_Some_inv in Hm as (Hv & tv & ev & [Ht0 Ht] & _ & _).
    simpl in *.
    pose proof (lookup_lt_length a _ _ Ht0 Ht) as Htl.
    rewrite isValidMove_cells in Hv by (simpl; lia).
    simpl in Hv. congruence. }
  split; [done|].
  destruct (makeMoveRef_refines store p a t Ha) as (res & store' & Hrun & Hold & Hres).
  rewrite Hnone in Hres. subst res.
  exists store'. auto.
Qed.

Lemma makeMove_not_adjacent_witness :
  makeMove (mkPuzzle (solvedGrid 9) 8 3) 9 = None ∧
  ∃ store', Ref.makeMoveRef (Ref.mkPuzzle 1 8 3) 9 {[ 1%positive := solvedGrid 9 ]}
            = (None, store') ∧
            store' !! 1%positive = Some (solvedGrid 9) ∧
            (∀ r b, ({[ 1%positive := solvedGrid 9 ]} : gmap positive jsarray) !! r = Some b →
                    store' !! r = Some b).
Proof.
  apply (makeMove_not_adjacent {[ 1%positive := solvedGrid 9 ]}
           (Ref.mkPuzzle 1 8 3) (solvedGrid 9) 9);
    [reflexivity|simpl; lia|reflexivity|reflexivity].
Defined.

(** C7.  From a state satisfying the invariant, a move of the tile at an
    orthogonal neighbour [t] of the empty slot [e] succeeds, the move of
    index [e] in the resulting state succeeds too, and it restores the board
    and the empty index. *)
Theorem makeMove_inverse (p : PuzzleState) (t : Z) :
  PuzzleInv p → 0 < size p →
  orthAdjacent (size p) t (emptyIndex p) = true →
  ∃ p' p'', makeMove p t = Some p' ∧
            makeMove p' (emptyIndex p) = Some p'' ∧
            JsArray.elems (grid p'') = JsArray.elems (grid p) ∧
            emptyIndex p'' = emptyIndex p.
Proof.
  intros (Hb & He0 & He) Hsize Hadj.
  pose proof Hadj as Hadj'. apply orthAdjacent_spec in Hadj' as (Ht & Hecell & Hd).
  assert (Hlen : JsArray.length (grid p) = size p * size p)
    by (apply board_length; [lia|done]).
  destruct (board_lookup _ _ t Hb) as [tv Htv]; [lia|].
  assert (Hne : Z.to_nat t ≠ Z.to_nat (emptyIndex p)).
  { intros Heq. assert (t = emptyIndex p) as Hte by lia. rewrite Hte in Hd. lia. }
  assert (Htl : (Z.to_nat t < length (JsArray.elems (grid p)))%nat)
    by by eapply lookup_lt_Some.
  assert (Hel : (Z.to_nat (emptyIndex p) < length (JsArray.elems (grid p)))%nat)
    by by eapply lookup_lt_Some.
  eexists _, _. split; [|split].
  - apply (makeMove_Some_intro p t tv (size p * size p - 1)); try done; try lia.
    by rewrite isValidMove_cells.
  - apply (makeMove_Some_intro _ (emptyIndex p) tv (size p * size p - 1)); simpl; try lia.
    + rewrite isValidMove_cells by (simpl; lia). simpl. by rewrite orthAdjacent_sym.
    + rewrite list_lookup_insert_eq; [done|]. by rewrite length_insert.
    + rewrite list_lookup_insert_ne by done.
      by rewrite list_lookup_insert_eq.
  - simpl. split; [|done].
    rewrite list_insert_insert_eq.
    rewrite list_insert_insert_ne by done.
    rewrite list_insert_insert_eq.
    by rewrite (list_insert_id _ _ _ Htv), (list_insert_id _ _ _ He).
Qed.

Lemma makeMove_inverse_witness :
  ∃ p' p'', makeMove (mkPuzzle (solvedGrid 9) 8 3) 5 = Some p' ∧
            makeMove p' 8 = Some p'' ∧
            JsArray.elems (grid p'') = JsArray.elems (solvedGrid 9) ∧
            emptyIndex p'' = 8.
Proof.
  apply (makeMove_inverse (mkPuzzle (solvedGrid 9) 8 3) 5);
    [|simpl; lia|reflexivity].
  split; [unfold isBoard; vm_compute; reflexivity|].
  split; [simpl; lia|reflexivity].
Defined.

(** ** The fallback grid and the solvability test *)

Lemma shuffleUntilSolvable_exhausted (size : Z) (rng : SeededRandom) :
  shuffleUntilSolvable 0 size rng = fallbackGrid (size * size).
Proof. simpl. by destruct (seededShuffle _ rng). Qed.

(** C2.  The fallback grid passes [isSolvable] for the sizes 3 and 5 and
    fails it for size 4: it has no inversion and its empty tile is in row 3,
    so [(inversions + emptyRow) % 2] is 1. *)
Theorem fallbackGrid_isSolvable :
  isSolvable (fallbackGrid (3 * 3)) 3 = true ∧
  isSolvable (fallbackGrid (5 * 5)) 5 = true ∧
  countInversions (fallbackGrid (4 * 4)) 4 = 0 ∧
  getEmptyRow (fallbackGrid (4 * 4)) 4 = 3 ∧
  isSolvable (fallbackGrid (4 * 4)) 4 = false.
Proof. repeat split; reflexivity. Qed.

(** ** The hint heuristic *)

Lemma hintMoves_getAdjacentIndices (p : PuzzleState) :
  hintMoves p = getAdjacentIndices (emptyIndex p) (size p).
Proof. reflexivity. Qed.

Lemma hintScore_manhattan (p : PuzzleState) (t v : Z) :
  JsArray.get (grid p) t = Some v →
  hintScore p t = Some (manhattan (size p) t v - manhattan (size p) (emptyIndex p) v).
Proof. intros Hv. unfold hintScore. by rewrite Hv. Qed.

Section HintLoop.

Variable p : PuzzleState.

(** The scoring loop keeps the first candidate of the highest score seen,
    provided that score exceeds the score it started from. *)
Lemma hint_loop (l : list Z) (best : option Z * Z) :
  let res := fold_left (hintStep p) l best in
  (∀ u s, u ∈ l → hintScore p u = Some s → s <= res.2) ∧
  best.2 <= res.2 ∧
  (res = best ∨
   ∃ before t after,
     l = before ++ t :: after ∧ res.1 = Some t ∧
     hintScore p t = Some res.2 ∧ best.2 < res.2 ∧
     ∀ u s, u ∈ before → hintScore p u = Some s → s < res.2).
Proof.
  induction l as [|x l IH] using rev_ind; simpl.
  - split; [|split; [lia|by left]]. intros u s Hu. by apply elem_of_nil in Hu.
  - rewrite fold_left_app. cbn [fold_left].
    destruct IH as (Hall & Hle & Hres).
    set (res := fold_left (hintStep p) l best) in *.
    assert (Hstep :
              (∃ sx, hintScore p x = Some sx ∧ res.2 < sx ∧
                     hintStep p res x = (Some x, sx)) ∨
              (hintStep p res x = res ∧
               ∀ sx, hintScore p x = Some sx → sx <= res.2)).
    { unfold hintStep. destruct (hintScore p x) as [sx|]; [|by right].
      destruct (Z.ltb_spec res.2 sx); [left; by exists sx|right].
      split; [done|]. intros ? [= <-]. done. }
    destruct Hstep as [(sx & Hx & Hlt & ->)|[-> Hx]]; simpl.
    + split; [|split; [lia|]].
      * intros u s Hu Hs. apply elem_of_app in Hu as [Hu|Hu].
        -- specialize (Hall u s Hu Hs). lia.
        -- apply list_elem_of_singleton in Hu as ->. simplify_eq. lia.
      * right. exists l, x, []. repeat split; try done; [lia|].
        intros u s Hu Hs. specialize (Hall u s Hu Hs). lia.
    + split; [|split; [done|]].
      * intros u s Hu Hs. apply elem_of_app in Hu as [Hu|Hu]; [by eapply Hall|].
        apply list_elem_of_singleton in Hu as ->. by apply Hx.
      * destruct Hres as [Hres|(before & t & after & -> & ?)]; [by left|].
        right. exists before, t, (after ++ [x]).
        by rewrite <- app_assoc.
Qed.

End HintLoop.

(** C8 (amended).  The candidates are the neighbours of the empty slot in
    the order up, down, left, right, each scored by its grid distance to its
    target before the move minus the distance after it.  The hint is the
    first candidate of the highest score when that score exceeds -1, and
    no hint ([null]) when no candidate scores above -1. *)
Theorem getNextMoveHint_spec (p : PuzzleState) :
  size p ≠ 0 →
  hintMoves p = getAdjacentIndices (emptyIndex p) (size p) ∧
  (∀ t v, JsArray.get (grid p) t = Some v →
          hintScore p t =
            Some (manhattan (size p) t v - manhattan (size p) (emptyIndex p) v)) ∧
  match getNextMoveHint p with
  | Some t =>
      ∃ before after s,
        hintMoves p = before ++ t :: after ∧
        hintScore p t = Some s ∧ -1 < s ∧
        (∀ u s', u ∈ before → hintScore p u = Some s' → s' < s) ∧
        (∀ u s', u ∈ after → hintScore p u = Some s' → s' <= s)
  | None => ∀ u s', u ∈ hintMoves p → hintScore p u = Some s' → s' <= -1
  end.
Proof.
  intros _. split; [done|]. split; [apply hintScore_manhattan|].
  unfold getNextMoveHint.
  destruct (hint_loop p (hintMoves p) (None, -1)) as (Hall & Hle & Hres).
  destruct Hres as [Heq|(before & t & after & Hl & -> & Ht & Hlt & Hbefore)]; simpl in *.
  - rewrite Heq in *. exact Hall.
  - exists before, after, (fold_left (hintStep p) (hintMoves p) (None, -1)).2.
    repeat split; try done.
    intros u s' Hu. apply Hall. rewrite Hl. set_solver.
Qed.

Lemma getNextMoveHint_spec_witness :
  hintMoves homeNeighbours = getAdjacentIndices 8 3 ∧
  (∀ t v, JsArray.get (grid homeNeighbours) t = Some v →
          hintScore homeNeighbours t =
            Some (manhattan 3 t v - manhattan 3 8 v)) ∧
  match getNextMoveHint homeNeighbours with
  | Some t =>
      ∃ before after s,
        hintMoves homeNeighbours = before ++ t :: after ∧
        hintScore homeNeighbours t = Some s ∧ -1 < s ∧
        (∀ u s', u ∈ before → hintScore homeNeighbours u = Some s' → s' < s) ∧
        (∀ u s', u ∈ after → hintScore homeNeighbours u = Some s' → s' <= s)
  | None => ∀ u s', u ∈ hintMoves homeNeighbours →
                    hintScore homeNeighbours u = Some s' → s' <= -1
  end.
Proof. apply (getNextMoveHint_spec homeNeighbours). simpl. lia. Defined.

(** C8 fails where every candidate moves away from its target: the
    candidates of [homeNeighbours] are the indices 5 and 7, both score -1,
    the first of the highest score is 5, and the heuristic returns [null]. *)
Lemma getNextMoveHint_home_neighbours :
  hintMoves homeNeighbours = [5; 7] ∧
  hintScore homeNeighbours 5 = Some (-1) ∧
  hintScore homeNeighbours 7 = Some (-1) ∧
  getNextMoveHint homeNeighbours = None.
Proof. repeat split; reflexivity. Qed.

(** ** The order of the leaderboard and the sort *)

Lemma better_lexLt (a b : LeaderboardEntry) : better a b = true ↔ lexLt a b.
Proof.
  unfold better, lexLt.
  rewrite orb_true_iff, andb_true_iff, !Z.ltb_lt, Z.eqb_eq. tauto.
Qed.

Lemma compareEntries_pos (a b : LeaderboardEntry) :
  0 < compareEntries a b ↔ lexLt b a.
Proof.
  unfold compareEntries, lexLt.
  destruct (Z.eqb_spec (time a) (time b)); simpl; lia.
Qed.

Lemma lexLt_lexLe (a b : LeaderboardEntry) : lexLt a b → lexLe a b.
Proof. unfold lexLt, lexLe. lia. Qed.

Lemma not_lexLt_lexLe (a b : LeaderboardEntry) : ¬ lexLt b a → lexLe a b.
Proof. unfold lexLt, lexLe. lia. Qed.

#[local] Instance lexLe_trans : Transitive lexLe.
Proof. intros a b c. unfold lexLe. lia. Qed.

Lemma insertEntry_Permutation (a : LeaderboardEntry) (l : list LeaderboardEntry) :
  insertEntry a l ≡ₚ a :: l.
Proof.
  induction l as [|b l IH]; simpl; [done|].
  destruct (0 <? compareEntries a b); [|done].
  rewrite IH. apply Permutation_swap.
Qed.

Lemma insertEntry_sorted (a : LeaderboardEntry) (l : list LeaderboardEntry) :
  StronglySorted lexLe l → StronglySorted lexLe (insertEntry a l).
Proof.
  induction l as [|b l IH]; simpl; intros Hs.
  - repeat constructor.
  - apply StronglySorted_inv in Hs as [Hl Hb].
    destruct (Z.ltb_spec 0 (compareEntries a b)) as [Hlt|Hge].
    + apply compareEntries_pos in Hlt.
      constructor; [by apply IH|].
      rewrite insertEntry_Permutation. constructor; [by apply lexLt_lexLe|done].
    + assert (lexLe a b) as Hab.
      { apply not_lexLt_lexLe. rewrite <- compareEntries_pos. lia. }
      constructor; [by constructor|].
      constructor; [done|].
      eapply Forall_impl; [exact Hb|]. intros c Hc. by transitivity b.
Qed.

Lemma sortEntries_Permutation (l : list LeaderboardEntry) : sortEntries l ≡ₚ l.
Proof.
  induction l as [|a l IH]; simpl; [done|].
  by rewrite insertEntry_Permutation, IH.
Qed.

Lemma sortEntries_sorted (l : list LeaderboardEntry) :
  StronglySorted lexLe (sortEntries l).
Proof.
  induction l as [|a l IH]; simpl; [constructor|by apply insertEntry_sorted].
Qed.

(** ** Looking a player up *)

Lemma findIndex_from_first (name : string) (l : list LeaderboardEntry)
    (i : nat) (e : LeaderboardEntry) (k : Z) :
  firstEntryOf name l i e → findIndex_from name l k = k + Z.of_nat i.
Proof.
  revert i k. induction l as [|x l IH]; intros i k (Hi & Hn & Hfirst).
  - done.
  - simpl. destruct i as [|i].
    + simplify_eq/=. rewrite decide_True by done. lia.
    + rewrite decide_False by (apply (Hfirst 0%nat x); [lia|done]).
      rewrite (IH i (k + 1)); [lia|].
      repeat split; try done.
      intros j e' Hj He'. apply (Hfirst (S j) e'); [lia|done].
Qed.

Lemma findIndex_from_absent (name : string) (l : list LeaderboardEntry) (k : Z) :
  name ∉ username <$> l → findIndex_from name l k = -1.
Proof.
  revert k. induction l as [|x l IH]; intros k Hn; simpl; [done|].
  rewrite fmap_cons, not_elem_of_cons in Hn. destruct Hn as [Hx Hl].
  rewrite decide_False by done. by apply IH.
Qed.

(** A list either holds a first entry under [name] or none at all. *)
Lemma firstEntryOf_cases (name : string) (l : list LeaderboardEntry) :
  (∃ i e, firstEntryOf name l i e) ∨ name ∉ username <$> l.
Proof.
  induction l as [|x l IH].
  - right. apply not_elem_of_nil.
  - destruct (decide (username x = name)) as [Hx|Hx].
    + left. exists 0%nat, x. repeat split; try done. lia.
    + destruct IH as [(i & e & Hi & Hn & Hfirst)|Hl].
      * left. exists (S i), e. repeat split; try done.
        intros [|j] e' Hj He'; simplify_eq/=; [done|].
        apply (Hfirst j e'); [lia|done].
      * right. rewrite fmap_cons, not_elem_of_cons. split; [congruence|done].
Qed.

Lemma findIndex_first (name : string) (l : list LeaderboardEntry)
    (i : nat) (e : LeaderboardEntry) :
  firstEntryOf name l i e → findIndex name l = Z.of_nat i.
Proof. intros H. unfold findIndex. by rewrite (findIndex_from_first _ _ i e). Qed.

Lemma findIndex_absent (name : string) (l : list LeaderboardEntry) :
  name ∉ username <$> l → findIndex name l = -1.
Proof. apply findIndex_from_absent. Qed.

(** ** Submitting a score *)

(** C5.  When the table holds an entry of the submitter, [submit] replaces
    it exactly when the new (time, moves) pair is strictly below the old one
    in the lexicographic order; otherwise the table is returned as it was,
    nothing is saved, and the rank reported is one more than the number of
    entries strictly better than the old entry. *)
Theorem submit_existing (leaderboard : list LeaderboardEntry)
    (entry existing : LeaderboardEntry) (i : nat) :
  firstEntryOf (username entry) leaderboard i existing →
  let r := submit leaderboard entry in
  (lexLt entry existing →
   saved r = true ∧
   table r = take 100 (sortEntries (<[i := entry]> leaderboard))) ∧
  (¬ lexLt entry existing →
   saved r = false ∧ table r = leaderboard ∧
   rank r = 1 + betterCount existing leaderboard).
Proof.
  intros Hfirst. pose proof Hfirst as (Hi & _ & _).
  unfold submit. rewrite (findIndex_first _ _ _ _ Hfirst).
  destruct (Z.leb_spec 0 (Z.of_nat i)); [|lia].
  rewrite Nat2Z.id, Hi.
  destruct (better entry existing) eqn:Hb; simpl.
  - apply better_lexLt in Hb. split; [done|]. by intros [].
  - assert (¬ lexLt entry existing) as Hn
        by (rewrite <- better_lexLt; congruence).
    split; [done|]. intros _. repeat split.
    unfold betterCount.
    rewrite (list_filter_iff _ (fun e => lexLt e existing)); [lia|].
    intros e. apply better_lexLt.
Qed.

Lemma submit_existing_witness :
  let leaderboard := [mkEntry "u" 100 5 3 "2025-01-01"] in
  let entry := mkEntry "u" 150 10 3 "2025-01-01" in
  let existing := mkEntry "u" 100 5 3 "2025-01-01" in
  let r := submit leaderboard entry in
  (lexLt entry existing →
   saved r = true ∧
   table r = take 100 (sortEntries (<[0%nat := entry]> leaderboard))) ∧
  (¬ lexLt entry existing →
   saved r = false ∧ table r = leaderboard ∧
   rank r = 1 + betterCount existing leaderboard).
Proof.
  apply (submit_existing [mkEntry "u" 100 5 3 "2025-01-01"]
           (mkEntry "u" 150 10 3 "2025-01-01")
           (mkEntry "u" 100 5 3 "2025-01-01") 0).
  split; [reflexivity|]. split; [reflexivity|]. intros j e' Hj. lia.
Defined.

Lemma submit_saved_inserted (leaderboard : list LeaderboardEntry)
    (entry : LeaderboardEntry) :
  saved (submit leaderboard entry) = true →
  ∃ inserted,
    submit leaderboard entry = sortAndRank inserted (username entry) ∧
    (((username entry ∉ username <$> leaderboard) ∧
      inserted = leaderboard ++ [entry]) ∨
     (∃ i existing, firstEntryOf (username entry) leaderboard i existing ∧
                    lexLt entry existing ∧
                    inserted = <[i := entry]> leaderboard)).
Proof.
  unfold submit.
  destruct (firstEntryOf_cases (username entry) leaderboard)
    as [(i & existing & Hfirst)|Habsent].
  - pose proof Hfirst as (Hi & _ & _).
    rewrite (findIndex_first _ _ _ _ Hfirst).
    destruct (Z.leb_spec 0 (Z.of_nat i)); [|lia].
    rewrite Nat2Z.id, Hi.
    destruct (better entry existing) eqn:Hb; simpl; [|done].
    intros _. eexists. split; [done|]. right. exists i, existing.
    by rewrite <- better_lexLt.
  - rewrite (findIndex_absent _ _ Habsent). simpl.
    intros _. eexists. split; [done|]. by left.
Qed.

Lemma inserted_names_NoDup (leaderboard inserted : list LeaderboardEntry)
    (entry : LeaderboardEntry) :
  NoDup (username <$> leaderboard) →
  ((username entry ∉ username <$> leaderboard) ∧
   inserted = leaderboard ++ [entry]) ∨
  (∃ i existing, firstEntryOf (username entry) leaderboard i existing ∧
                 lexLt entry existing ∧
                 inserted = <[i := entry]> leaderboard) →
  NoDup (username <$> inserted).
Proof.
  intros Hnd [[Habsent ->]|(i & existing & (Hi & Hn & _) & _ & ->)].
  - rewrite fmap_app. apply NoDup_app. split; [done|]. split.
    + intros x Hx Hx'. apply list_elem_of_singleton in Hx'. by subst.
    + apply NoDup_singleton.
  - rewrite list_fmap_insert, list_insert_id; [done|].
    by rewrite list_lookup_fmap, Hi, <- Hn.
Qed.

(** C6.  When [submit] replaces or appends, the saved table is the first 100
    entries of the table re-sorted in ascending (time, moves) order, the
    rank reported is one more than the index of the submitter's entry in
    that saved table, and a table of more than 100 entries is cut to 100,
    none of the entries kept being worse than an entry dropped. *)
Theorem submit_saved (leaderboard : list LeaderboardEntry) (entry : LeaderboardEntry) :
  saved (submit leaderboard entry) = true →
  let r := submit leaderboard entry in
  ∃ inserted sorted,
    (inserted = leaderboard ++ [entry] ∨
     ∃ i existing, firstEntryOf (username entry) leaderboard i existing ∧
                   inserted = <[i := entry]> leaderboard) ∧
    sorted ≡ₚ inserted ∧ StronglySorted lexLe sorted ∧
    table r = take 100 sorted ∧
    (∀ i e, firstEntryOf (username entry) (table r) i e → rank r = Z.of_nat i + 1) ∧
    (NoDup (username <$> leaderboard) →
     ∀ i, table r !! i = Some entry → rank r = Z.of_nat i + 1) ∧
    ((100 < length inserted)%nat →
     length (table r) = 100%nat ∧
     ∀ kept dropped, kept ∈ table r → dropped ∈ drop 100 sorted → lexLe kept dropped).
Proof.
  intros Hsaved.
  destruct (submit_saved_inserted _ _ Hsaved) as (inserted & Heq & Hins).
  simpl. rewrite Heq. unfold sortAndRank. simpl.
  pose proof (sortEntries_Permutation inserted) as Hperm.
  pose proof (sortEntries_sorted inserted) as Hsorted.
  exists inserted, (sortEntries inserted).
  assert (Hrank : ∀ i e,
             firstEntryOf (username entry) (take 100 (sortEntries inserted)) i e →
             findIndex (username entry) (take 100 (sortEntries inserted)) + 1
             = Z.of_nat i + 1).
  { intros i e Hfirst. by rewrite (findIndex_first _ _ _ _ Hfirst). }
  repeat split; try done.
  - destruct Hins as [[_ ->]|(i & existing & Hfirst & _ & ->)]; [by left|].
    right. by exists i, existing.
  - intros Hnd i Hi. apply (Hrank i entry).
    repeat split; try done.
    intros j e' Hj He' Hname.
    assert (NoDup (username <$> take 100 (sortEntries inserted))) as Hnd'.
    { rewrite fmap_take. eapply sublist_NoDup; [|apply sublist_take].
      rewrite Hperm. by eapply inserted_names_NoDup. }
    assert (j = i); [|lia].
    apply (NoDup_lookup _ j i (username entry) Hnd').
    + by rewrite list_lookup_fmap, He', <- Hname.
    + by rewrite list_lookup_fmap, Hi.
  - rewrite length_take_le; [done|]. rewrite Hperm. lia.
  - intros kept dropped Hk Hd.
    apply (StronglySorted_app_1_elem_of lexLe (take 100 (sortEntries inserted))
             (drop 100 (sortEntries inserted))); try done.
    by rewrite take_drop.
Qed.

Lemma submit_saved_witness :
  let entry := mkEntry "u" 100 50 3 "2025-01-01" in
  let leaderboard := [mkEntry "u" 120 40 3 "2025-01-01"] in
  let r := submit leaderboard entry in
  ∃ inserted sorted,
    (inserted = leaderboard ++ [entry] ∨
     ∃ i existing, firstEntryOf (username entry) leaderboard i existing ∧
                   inserted = <[i := entry]> leaderboard) ∧
    sorted ≡ₚ inserted ∧ StronglySorted lexLe sorted ∧
    table r = take 100 sorted ∧
    (∀ i e, firstEntryOf (username entry) (table r) i e → rank r = Z.of_nat i + 1) ∧
    (NoDup (username <$> leaderboard) →
     ∀ i, table r !! i = Some entry → rank r = Z.of_nat i + 1) ∧
    ((100 < length inserted)%nat →
     length (table r) = 100%nat ∧
     ∀ kept dropped, kept ∈ table r → dropped ∈ drop 100 sorted → lexLe kept dropped).
Proof.
  apply (submit_saved [mkEntry "u" 120 40 3 "2025-01-01"]
           (mkEntry "u" 100 50 3 "2025-01-01")).
  reflexivity.
Defined.

(** ** The routes *)

(** The query route answers 400, without touching the store, whenever the
    parsed difficulty is not 3, 4 or 5. *)
Lemma getLeaderboard_rejects (parseInt : string → option Z)
    (dateQuery difficultyQuery : option string) (today : string) (w : World) :
  let difficultyStr :=
    match difficultyQuery with None | Some "" => "3"%string | Some d => d end in
  parseInt difficultyStr ≠ Some 3 → parseInt difficultyStr ≠ Some 4 →
  parseInt difficultyStr ≠ Some 5 →
  getLeaderboard parseInt dateQuery difficultyQuery today w
  = (ErrorResponse 400 "Invalid difficulty. Must be 3, 4, or 5", w).
Proof.
  intros difficultyStr H3 H4 H5. unfold getLeaderboard. fold difficultyStr.
  destruct (parseInt difficultyStr) as [d|]; [|done].
  destruct (Z.eqb_spec d 3); [congruence|].
  destruct (Z.eqb_spec d 4); [congruence|].
  destruct (Z.eqb_spec d 5); [congruence|]. done.
Qed.

(** C9.  The submission route does not check the difficulty against
    {3,4,5}: a score of difficulty 7 is accepted, the table under the key of
    difficulty 7 is read and written, and rank 1 is answered. *)
Theorem submitScore_difficulty_unchecked :
  ∃ w,
    submitScore (mkRequest 10 5 7) (Some "alice"%string) "2025-01-01" (mkWorld ∅ [])
    = (SubmitScoreResponse 1 "Score submitted successfully", w) ∧
    trace w = [RedisGet "leaderboard:2025-01-01:7";
               RedisSet "leaderboard:2025-01-01:7"
                 [mkEntry "alice" 10 5 7 "2025-01-01"]] ∧
    redis w !! "leaderboard:2025-01-01:7"%string
    = Some [mkEntry "alice" 10 5 7 "2025-01-01"].
Proof.
  eexists. split; [vm_compute; reflexivity|].
  split; vm_compute; reflexivity.
Qed.

Lemma PuzzleInv_created_and_preserved_witness :
  PuzzleInv (createShuffledPuzzle 3 42) ∧
  (∀ p', makeMove (mkPuzzle (solvedGrid 9) 8 3) 5 = Some p' → PuzzleInv p').
Proof.
  split.
  - apply (proj1 PuzzleInv_created_and_preserved 3 42);
      [by left|unfold maxExactSeed; lia].
  - intros p'.
    apply (proj2 PuzzleInv_created_and_preserved (mkPuzzle (solvedGrid 9) 8 3) 5 p').
    split; [unfold isBoard; vm_compute; reflexivity|].
    split; [simpl; lia|reflexivity].
Defined.

(** * Further properties of the engine *)

(** ** Solved states *)

Lemma every_at_index_identity (l : list (option Z)) (k : Z) :
  every_at_index l k = true ↔ l = Some <$> seqZ k (Z.of_nat (length l)).
Proof.
  revert k. induction l as [|x l IH]; intros k.
  - done.
  - cbn [every_at_index length].
    rewrite andb_true_iff, bool_decide_eq_true, IH.
    rewrite Nat2Z.inj_succ, (seqZ_cons k) by lia.
    replace (Z.pred (Z.succ (Z.of_nat (length l)))) with (Z.of_nat (length l)) by lia.
    replace (Z.succ k) with (k + 1) by lia.
    rewrite fmap_cons. split; [by intros [-> <-]|]. intros [= -> Hl]. by rewrite <- Hl.
Qed.

Lemma isSolved_spec (p : PuzzleState) :
  isSolved p = true ↔
  JsArray.elems (grid p) = Some <$> seqZ 0 (JsArray.length (grid p)).
Proof. apply every_at_index_identity. Qed.

Lemma isValidMove_not_self (p : PuzzleState) (t : Z) :
  size p ≠ 0 → isValidMove p t = true → emptyIndex p ≠ t.
Proof.
  intros Hsize Hv. unfold isValidMove in Hv.
  apply bool_decide_eq_true, elem_of_getAdjacentIndices in Hv.
  destruct Hv as [[_ ->]|[[_ ->]|[[_ ->]|[_ ->]]]]; lia.
Qed.

(** X1.  On a grid whose slots all hold a number, [isSolved] answers true
    exactly on the grid [0, 1, ..., n-1], whatever the size and the empty
    index recorded in the state. *)
Theorem isSolved_identity (p : PuzzleState) :
  (∀ value, value ∈ JsArray.elems (grid p) → is_Some value) →
  isSolved p = true ↔
  JsArray.elems (grid p) = Some <$> seqZ 0 (JsArray.length (grid p)).
Proof. intros _. apply isSolved_spec. Qed.

Lemma isSolved_identity_witness :
  isSolved (mkPuzzle (JsArray.of_list [0; 2; 1]) 2 3) = true ↔
  JsArray.elems (grid (mkPuzzle (JsArray.of_list [0; 2; 1]) 2 3)) =
    Some <$> seqZ 0 (JsArray.length (grid (mkPuzzle (JsArray.of_list [0; 2; 1]) 2 3))).
Proof.
  apply (isSolved_identity (mkPuzzle (JsArray.of_list [0; 2; 1]) 2 3)).
  intros value Hv. unfold JsArray.of_list in Hv. cbn [grid JsArray.elems] in Hv.
  apply list_elem_of_fmap in Hv as (v & -> & _). by eexists.
Defined.

Lemma PuzzleInv_size (p : PuzzleState) : PuzzleInv p → size p ≠ 0.
Proof.
  intros (Hb & _ & He) Hz. apply lookup_lt_Some in He.
  rewrite Hb, length_fmap, length_seqZ, Hz in He. simpl in He. lia.
Qed.

Lemma board_NoDup (size : Z) (g : jsarray) :
  isBoard size g → NoDup (JsArray.elems g).
Proof.
  intros Hb. rewrite Hb. apply NoDup_fmap_2; [apply _|apply NoDup_seqZ].
Qed.

Lemma makeMove_board_differs (p p' : PuzzleState) (t : Z) :
  PuzzleInv p → makeMove p t = Some p' →
  JsArray.elems (grid p') ≠ JsArray.elems (grid p).
Proof.
  intros Hinv Hm.
  pose proof (PuzzleInv_size p Hinv) as Hsize.
  destruct Hinv as (Hb & He0 & He).
  apply makeMove_Some_inv in Hm as (Hv & tv & ev & [Ht0 Ht] & [_ He'] & ->).
  pose proof (isValidMove_not_self p t Hsize Hv) as Hne.
  assert (ev = size p * size p - 1) as -> by congruence.
  simpl. intros Heq.
  assert (Hnew : <[Z.to_nat (emptyIndex p):=Some tv]>
                   (<[Z.to_nat t:=Some (size p * size p - 1)]> (JsArray.elems (grid p)))
                 !! Z.to_nat t = Some (Some (size p * size p - 1))).
  { rewrite list_lookup_insert_ne by lia.
    rewrite list_lookup_insert_eq; [done|]. by eapply lookup_lt_Some. }
  rewrite Heq in Hnew.
  pose proof (NoDup_lookup _ _ _ _ (board_NoDup _ _ Hb) Hnew He). lia.
Qed.

(** X2.  A successful move changes the board: the slot the tile left now
    holds the empty tile. *)
Theorem makeMove_changes_board (p p' : PuzzleState) (t : Z) :
  PuzzleInv p → makeMove p t = Some p' →
  JsArray.elems (grid p') ≠ JsArray.elems (grid p).
Proof. apply makeMove_board_differs. Qed.

Lemma makeMove_changes_board_witness :
  JsArray.elems
    (JsArray.Make [Some 0; Some 1; Some 2; Some 3; Some 4; Some 8; Some 6; Some 7; Some 5] ∅)
  ≠ JsArray.elems (solvedGrid 9).
Proof.
  apply (makeMove_changes_board (mkPuzzle (solvedGrid 9) 8 3)
           (mkPuzzle (JsArray.Make [Some 0; Some 1; Some 2; Some 3; Some 4;
                                    Some 8; Some 6; Some 7; Some 5] ∅) 5 3) 5).
  - split; [unfold isBoard; vm_compute; reflexivity|].
    split; [simpl; lia|reflexivity].
  - reflexivity.
Defined.

(** X3.  No move out of a solved state leads to a solved state. *)
Theorem makeMove_from_solved (p p' : PuzzleState) (t : Z) :
  PuzzleInv p → isSolved p = true → makeMove p t = Some p' →
  isSolved p' = false.
Proof.
  intros Hinv Hs Hm.
  destruct (isSolved p') eqn:Hs'; [|done].
  exfalso. apply (makeMove_board_differs p p' t Hinv Hm).
  apply isSolved_spec in Hs, Hs'.
  rewrite Hs, Hs'. f_equal. f_equal.
  apply makeMove_Some_inv in Hm as (_ & tv & ev & _ & _ & ->).
  unfold JsArray.length. simpl. by rewrite !length_insert.
Qed.

Lemma makeMove_from_solved_witness :
  isSolved (mkPuzzle (JsArray.Make [Some 0; Some 1; Some 2; Some 3; Some 4;
                                    Some 8; Some 6; Some 7; Some 5] ∅) 5 3) = false.
Proof.
  apply (makeMove_from_solved (mkPuzzle (solvedGrid 9) 8 3) _ 5).
  - split; [unfold isBoard; vm_compute; reflexivity|].
    split; [simpl; lia|reflexivity].
  - reflexivity.
  - reflexivity.
Defined.

(** ** The solvability test on the solved grid *)

Lemma inversions_of_above (v k n empty : Z) :
  v < k → inversions_of v (Some <$> seqZ k n) empty = 0.
Proof.
  intros Hv. destruct (Z.le_gt_cases n 0) as [Hn|Hn].
  - by rewrite seqZ_nil.
  - rewrite <- (Z2Nat.id n) by lia. clear Hn.
    revert k Hv. induction (Z.to_nat n) as [|m IH]; intros k Hv; [done|].
    rewrite Nat2Z.inj_succ, seqZ_cons by lia.
    replace (Z.pred (Z.succ (Z.of_nat m))) with (Z.of_nat m) by lia.
    rewrite fmap_cons. cbn [inversions_of].
    rewrite IH by lia.
    destruct (k =? empty); [done|].
    destruct (Z.ltb_spec k v); [lia|done].
Qed.

Lemma count_from_ascending (k n empty : Z) :
  count_from (Some <$> seqZ k n) empty = 0.
Proof.
  destruct (Z.le_gt_cases n 0) as [Hn|Hn].
  - by rewrite seqZ_nil.
  - rewrite <- (Z2Nat.id n) by lia. clear Hn.
    revert k. induction (Z.to_nat n) as [|m IH]; intros k; [done|].
    rewrite Nat2Z.inj_succ, seqZ_cons by lia.
    replace (Z.pred (Z.succ (Z.of_nat m))) with (Z.of_nat m) by lia.
    rewrite fmap_cons. cbn [count_from].
    rewrite IH, inversions_of_above by lia.
    by destruct (k =? empty).
Qed.

Lemma index_from_ascending (k n v i : Z) :
  k <= v < k + n → JsArray.index_from (Some <$> seqZ k n) v i = i + (v - k).
Proof.
  intros Hv. rewrite <- (Z2Nat.id n) in * by lia.
  revert k i Hv. induction (Z.to_nat n) as [|m IH]; intros k i Hv; [lia|].
  rewrite Nat2Z.inj_succ, seqZ_cons by lia.
  replace (Z.pred (Z.succ (Z.of_nat m))) with (Z.of_nat m) by lia.
  rewrite fmap_cons. cbn [JsArray.index_from].
  destruct (decide (Some k = Some v)) as [[= ->]|Hne]; [lia|].
  rewrite IH; [lia|]. assert (k ≠ v) by congruence. lia.
Qed.

Lemma solvedGrid_verdict (size : Z) :
  0 < size → isSolvable (solvedGrid (size * size)) size = Z.odd size.
Proof.
  intros Hsize. unfold isSolvable, countInversions, getEmptyRow, JsArray.indexOf.
  unfold solvedGrid, JsArray.of_list. cbn [JsArray.elems].
  rewrite count_from_ascending, index_from_ascending by nia.
  replace (0 + (size * size - 1 - 0)) with ((size - 1) * size + (size - 1)) by lia.
  rewrite Z.div_add_l, (Z.div_small (size - 1)) by lia.
  rewrite !Z.rem_mod_nonneg by lia.
  rewrite (Zmod_odd size), (Zmod_odd (0 + _)).
  replace (0 + (size - 1 + 0)) with (Z.pred size) by lia.
  rewrite Z.odd_pred, <- Z.negb_odd.
  by destruct (Z.odd size).
Qed.

(** X4.  The solved grid passes [isSolvable] exactly when the size is odd:
    it has no inversion, and its empty tile is in row [size - 1]. *)
Theorem isSolvable_solvedGrid (size : Z) :
  0 < size → isSolvable (solvedGrid (size * size)) size = Z.odd size.
Proof. apply solvedGrid_verdict. Qed.

Lemma isSolvable_solvedGrid_witness :
  isSolvable (solvedGrid (4 * 4)) 4 = Z.odd 4.
Proof. apply (isSolvable_solvedGrid 4). lia. Defined.

(** ** Neighbours *)

(** X5.  For a cell of the grid, [getAdjacentIndices] lists between zero
    and four cells of the grid, none of them twice and none the cell
    itself. *)
Theorem getAdjacentIndices_cells_only (size index : Z) :
  0 < size → 0 <= index < size * size →
  NoDup (getAdjacentIndices index size) ∧
  (length (getAdjacentIndices index size) <= 4)%nat ∧
  ∀ e, e ∈ getAdjacentIndices index size → 0 <= e < size * size ∧ e ≠ index.
Proof.
  intros Hsize Hi. split; [|split].
  - unfold getAdjacentIndices.
    rewrite Z.rem_mod_nonneg by lia.
    pose proof (Z.mod_pos_bound index size Hsize) as Hr.
    repeat match goal with
           | |- context [ (?x <? ?y) ] => destruct (Z.ltb_spec x y)
           end; simpl;
      repeat (apply NoDup_cons; split;
              [rewrite ?elem_of_cons, ?elem_of_nil; lia|]);
      apply NoDup_nil_2.
  - unfold getAdjacentIndices.
    repeat match goal with
           | |- context [ (?x <? ?y) ] => destruct (x <? y)
           end; simpl; lia.
  - intros e He. apply getAdjacentIndices_cells in He; [|done..].
    apply orthAdjacent_spec in He as (_ & He & Hd).
    split; [done|]. intros ->. rewrite !Z.sub_diag in Hd. simpl in Hd. lia.
Qed.

Lemma getAdjacentIndices_cells_only_witness :
  NoDup (getAdjacentIndices 4 3) ∧
  (length (getAdjacentIndices 4 3) <= 4)%nat ∧
  ∀ e, e ∈ getAdjacentIndices 4 3 → 0 <= e < 3 * 3 ∧ e ≠ 4.
Proof. apply (getAdjacentIndices_cells_only 3 4); lia. Defined.

(** ** Moves never write to the caller's arrays *)

(** X6.  Whatever the tile index, [makeMoveRef] leaves every array object
    of the caller as it was, and the grid of a state it returns is an
    object that did not exist before the call. *)
Theorem makeMoveRef_fresh_grid (store : gmap positive jsarray)
    (p : Ref.PuzzleState) (t : Z) :
  ∃ res store',
    Ref.makeMoveRef p t store = (res, store') ∧
    (∀ r b, store !! r = Some b → store' !! r = Some b) ∧
    ∀ p', res = Some p' →
          store !! Ref.grid p' = None ∧ is_Some (store' !! Ref.grid p') ∧
          Ref.emptyIndex p' = t ∧ Ref.size p' = Ref.size p.
Proof.
  unfold Ref.makeMoveRef.
  destruct (Ref.isValidMove p t); cbn [negb];
    [|by exists None, store].
  destruct (store !! Ref.grid p) as [a|] eqn:Ha; [|by exists None, store].
  destruct (alloc_fresh (JsArray.spread a) store) as (r & -> & Hr).
  assert (Hold : ∀ r0 b, store !! r0 = Some b →
                         <[r := JsArray.spread a]> store !! r0 = Some b).
  { intros r0 b Hb. rewrite lookup_insert_ne; [done|congruence]. }
  destruct (Ref.read r t _) as [tv|]; [|by eexists None, _].
  destruct (Ref.read r (Ref.emptyIndex p) _) as [ev|]; [|by eexists None, _].
  eexists _, _. split; [reflexivity|]. split.
  - intros r0 b Hb. unfold Ref.assign.
    rewrite !lookup_alter_ne by congruence. by apply Hold.
  - intros p' [= <-]. simpl. repeat split; try done.
    unfold Ref.assign. rewrite !lookup_alter_eq, lookup_insert_eq. by eexists.
Qed.

(** ** The generator *)

(** X7.  From a state between 0 and 5411272429, the range on which the
    arithmetic of the generator is exact, [next] returns a number in [0, 1)
    and a state in [0, 2^32), which is in that range again. *)
Theorem next_unit_interval (rng : SeededRandom) :
  0 <= rng <= maxExactSeed →
  (0 <= (next rng).1 < 1)%Q ∧ 0 <= (next rng).2 < 2 ^ 32.
Proof.
  intros [Hrng _]. destruct (next_nonneg rng Hrng) as (s & -> & Hs). simpl.
  split; [|done]. unfold Qle, Qlt. simpl. lia.
Qed.

Lemma next_unit_interval_witness :
  (0 <= (next 42%Z).1 < 1)%Q ∧ 0 <= (next 42).2 < 2 ^ 32.
Proof. apply (next_unit_interval 42). unfold maxExactSeed. lia. Defined.

(** X8.  On the 32-bit states the step of the generator is one-to-one:
    two different states never lead to the same state. *)
Theorem next_injective (s1 s2 : SeededRandom) :
  0 <= s1 < 2 ^ 32 → 0 <= s2 < 2 ^ 32 →
  (next s1).2 = (next s2).2 → s1 = s2.
Proof.
  intros H1 H2. unfold next. cbn [snd].
  rewrite !Z.rem_mod_nonneg by lia. intros Heq.
  assert (Hdiv : (2 ^ 32 | (s1 - s2) * 1664525)).
  { apply Z.mod_divide; [lia|].
    replace ((s1 - s2) * 1664525)
      with ((s1 * 1664525 + 1013904223) - (s2 * 1664525 + 1013904223)) by lia.
    rewrite Zminus_mod, Heq, Z.sub_diag. done. }
  assert (Hdiv' : (2 ^ 32 | s1 - s2)).
  { destruct Hdiv as [k Hk]. exists (k * 4276115653 - (s1 - s2) * 1657219).
    lia. }
  destruct Hdiv' as [k Hk]. nia.
Qed.

Lemma next_injective_witness : 7 = 7.
Proof. apply (next_injective 7 7); [lia|lia|reflexivity]. Defined.

(** ** The shuffle *)

(** X9.  With a generator state between 0 and 5411272429 and an array of
    at most 2^21 elements (so that the product [rng.next() * (i + 1)] is
    exact as well), [seededShuffle] returns a rearrangement of the array it
    is given, whatever the array holds, gives the copy no property beside
    its elements, and leaves the generator state in the same range. *)
Theorem seededShuffle_rearranges (array : jsarray) (rng : SeededRandom) :
  0 <= rng <= maxExactSeed → JsArray.length array <= 2 ^ 21 →
  JsArray.elems (seededShuffle array rng).1 ≡ₚ JsArray.elems array ∧
  JsArray.props (seededShuffle array rng).1 = ∅ ∧
  0 <= (seededShuffle array rng).2 <= maxExactSeed.
Proof.
  intros Hrng _.
  pose proof (seededShuffle_state array rng Hrng) as Hstate.
  destruct (seededShuffle_Permutation array rng (proj1 Hrng))
    as (a' & rng' & Heq & ? & ? & ?).
  rewrite Heq in *. done.
Qed.

Lemma seededShuffle_rearranges_witness :
  JsArray.elems (seededShuffle (JsArray.of_list [5; 5; 7]) 1).1
    ≡ₚ JsArray.elems (JsArray.of_list [5; 5; 7]) ∧
  JsArray.props (seededShuffle (JsArray.of_list [5; 5; 7]) 1).1 = ∅ ∧
  0 <= (seededShuffle (JsArray.of_list [5; 5; 7]) 1).2 <= maxExactSeed.
Proof.
  apply (seededShuffle_rearranges (JsArray.of_list [5; 5; 7]) 1).
  - unfold maxExactSeed. lia.
  - vm_compute. discriminate.
Defined.

(** ** Moves keep the verdict of the solvability test *)

Lemma inversions_of_tiles (v empty : Z) (l : list (option Z)) :
  inversions_of v l empty = countBelow v (tiles empty l).
Proof.
  induction l as [|[x|] l IH]; cbn [inversions_of tiles omap]; [done| |].
  - simpl. destruct (x =? empty); simpl; fold (tiles empty l); rewrite IH; [done|].
    done.
  - simpl. fold (tiles empty l). by rewrite IH.
Qed.

Lemma count_from_tiles (empty : Z) (l : list (option Z)) :
  count_from l empty = inversions (tiles empty l).
Proof.
  induction l as [|[x|] l IH]; cbn [count_from]; [done| |].
  - unfold tiles. simpl. fold (tiles empty l).
    destruct (x =? empty); simpl; rewrite IH; [done|].
    by rewrite inversions_of_tiles.
  - unfold tiles. simpl. fold (tiles empty l). by rewrite IH.
Qed.

Lemma countBelow_app (v : Z) (l1 l2 : list Z) :
  countBelow v (l1 ++ l2) = countBelow v l1 + countBelow v l2.
Proof. induction l1 as [|x l1 IH]; simpl; [done|]. rewrite IH. lia. Qed.

Lemma countBelow_nonneg (v : Z) (l : list Z) : 0 <= countBelow v l.
Proof. induction l as [|x l IH]; simpl; [done|]. destruct (x <? v); lia. Qed.

Lemma inversions_nonneg (l : list Z) : 0 <= inversions l.
Proof.
  induction l as [|x l IH]; simpl; [done|].
  pose proof (countBelow_nonneg x l). lia.
Qed.

(** A tile taken from before a block to after it: the count changes by the
    tiles of the block below it minus those above it. *)
Lemma inversions_move (v : Z) (B C : list Z) :
  inversions (v :: B ++ C) - inversions (B ++ v :: C)
  = countBelow v B - countAbove v B.
Proof.
  induction B as [|b B IH]; [simpl; lia|].
  cbn [inversions app countBelow countAbove] in *.
  rewrite !countBelow_app in *. cbn [countBelow] in *.
  destruct (Z.ltb_spec b v), (Z.ltb_spec v b); lia.
Qed.

Lemma inversions_prefix (A X Y : list Z) :
  (∀ a, countBelow a X = countBelow a Y) →
  inversions (A ++ X) - inversions (A ++ Y) = inversions X - inversions Y.
Proof.
  intros Hc. induction A as [|a A IH]; simpl; [done|].
  rewrite !countBelow_app, (Hc a). lia.
Qed.

Lemma inversions_move_in (v : Z) (A B C : list Z) :
  inversions (A ++ v :: B ++ C) - inversions (A ++ B ++ v :: C)
  = countBelow v B - countAbove v B.
Proof.
  rewrite inversions_prefix; [apply inversions_move|].
  intros a. cbn [countBelow]. rewrite !countBelow_app. cbn [countBelow]. lia.
Qed.

Lemma count_split (v : Z) (B : list Z) :
  v ∉ B → countBelow v B + countAbove v B = Z.of_nat (length B).
Proof.
  induction B as [|b B IH]; [done|].
  rewrite not_elem_of_cons. intros [Hne Hn].
  cbn [countBelow countAbove length]. specialize (IH Hn).
  destruct (Z.ltb_spec b v), (Z.ltb_spec v b); lia.
Qed.

Lemma insert_at_length {A} (l1 l2 : list A) (x y : A) :
  <[length l1 := x]> (l1 ++ y :: l2) = l1 ++ x :: l2.
Proof. induction l1 as [|a l1 IH]; simpl; [done|]. by rewrite IH. Qed.

Lemma exchange_app {A} (l1 l2 l3 : list A) (x y : A) :
  <[(length l1 + S (length l2))%nat := x]>
    (<[length l1 := y]> (l1 ++ x :: l2 ++ y :: l3))
  = l1 ++ y :: l2 ++ x :: l3.
Proof.
  rewrite insert_at_length.
  induction l1 as [|a l1 IH]; simpl.
  - by rewrite insert_at_length.
  - by rewrite IH.
Qed.

(** The exchange of the slots [i < j], written as the source writes it, on
    the list cut at [i] and [j]. *)
Lemma exchange_cut {A} (l : list A) (i j : nat) (x y : A) :
  (i < j)%nat → l !! i = Some x → l !! j = Some y →
  ∃ l1 l2 l3,
    l = l1 ++ x :: l2 ++ y :: l3 ∧ length l1 = i ∧ length l2 = (j - i - 1)%nat ∧
    <[j := x]> (<[i := y]> l) = l1 ++ y :: l2 ++ x :: l3.
Proof.
  intros Hij Hi Hj.
  pose proof (take_drop_middle l i x Hi) as Hl.
  assert (Hj' : drop (S i) l !! (j - i - 1)%nat = Some y).
  { rewrite lookup_drop. by replace (S i + (j - i - 1))%nat with j by lia. }
  pose proof (take_drop_middle _ _ _ Hj') as Hr.
  assert (Hl1 : length (take i l) = i).
  { rewrite length_take. apply lookup_lt_Some in Hi. lia. }
  assert (Hl2 : length (take (j - i - 1) (drop (S i) l)) = (j - i - 1)%nat).
  { rewrite length_take, length_drop. apply lookup_lt_Some in Hj. lia. }
  remember (take i l) as l1 eqn:E1.
  remember (take (j - i - 1) (drop (S i) l)) as l2 eqn:E2.
  remember (drop (S (j - i - 1)) (drop (S i) l)) as l3 eqn:E3.
  clear E1 E2 E3.
  exists l1, l2, l3.
  assert (Heq : l = l1 ++ x :: l2 ++ y :: l3) by by rewrite Hr, Hl.
  split; [done|]. split; [done|]. split; [done|].
  rewrite Heq at 1.
  replace j with (length l1 + S (length l2))%nat by lia.
  rewrite <- Hl1 at 1. apply exchange_app.
Qed.

Lemma tiles_app (empty : Z) (l1 l2 : list (option Z)) :
  tiles empty (l1 ++ l2) = tiles empty l1 ++ tiles empty l2.
Proof. apply omap_app. Qed.

Lemma tiles_cons_empty (empty : Z) (l : list (option Z)) :
  tiles empty (Some empty :: l) = tiles empty l.
Proof. unfold tiles. simpl. by rewrite Z.eqb_refl. Qed.

Lemma tiles_cons_tile (empty v : Z) (l : list (option Z)) :
  v ≠ empty → tiles empty (Some v :: l) = v :: tiles empty l.
Proof.
  intros Hv. unfold tiles. simpl. by destruct (Z.eqb_spec v empty).
Qed.

Lemma elem_of_tiles (empty v : Z) (l : list (option Z)) :
  v ∈ tiles empty l → Some v ∈ l.
Proof.
  unfold tiles. rewrite list_elem_of_omap. intros ([x|] & Hx & Hv); simpl in Hv; [|done].
  destruct (x =? empty); by simplify_eq.
Qed.

Lemma tiles_length (empty : Z) (l : list (option Z)) :
  (∀ o, o ∈ l → is_Some o) → Some empty ∉ l →
  length (tiles empty l) = length l.
Proof.
  induction l as [|o l IH]; [done|]. intros Hdef Hne.
  rewrite not_elem_of_cons in Hne. destruct Hne as [Ho Hl].
  destruct (Hdef o) as [v ->]; [left|].
  rewrite tiles_cons_tile by congruence. simpl. f_equal.
  apply IH; [|done]. intros o' Ho'. apply Hdef. by right.
Qed.

(** The exchange of the empty tile with a tile [tv], [j - i - 1] slots
    apart, changes the inversion count by a number of the parity of the
    slots in between. *)
Lemma exchange_count (l : list (option Z)) (empty tv : Z) (i j : nat)
    (x y : option Z) :
  NoDup l → (∀ o, o ∈ l → is_Some o) →
  (i < j)%nat → l !! i = Some x → l !! j = Some y →
  (x = Some empty ∧ y = Some tv) ∨ (x = Some tv ∧ y = Some empty) →
  ∃ k, count_from (<[j := x]> (<[i := y]> l)) empty - count_from l empty
       = Z.of_nat (j - i - 1) + 2 * k.
Proof.
  intros Hnd Hdef Hij Hi Hj Hxy.
  destruct (exchange_cut l i j x y Hij Hi Hj) as (l1 & l2 & l3 & Hl & _ & Hlen & ->).
  rewrite Hl in *. clear Hl Hi Hj.
  apply NoDup_app in Hnd as (_ & _ & Hnd).
  apply NoDup_cons in Hnd as [Hx Hnd].
  apply NoDup_app in Hnd as (_ & Hy & _).
  assert (Hx2 : x ∉ l2) by (intros ?; apply Hx, elem_of_app; by left).
  assert (Hy2 : y ∉ l2) by (intros ?; eapply Hy; [done|left]).
  assert (Hxy' : x ≠ y) by (intros ->; apply Hx, elem_of_app; right; left).
  assert (Hdef2 : ∀ o, o ∈ l2 → is_Some o).
  { intros o Ho. apply Hdef, elem_of_app. right. right. apply elem_of_app. by left. }
  rewrite !count_from_tiles, <- Hlen.
  destruct Hxy as [[-> ->]|[-> ->]].
  - assert (tv ≠ empty) by congruence.
    rewrite !tiles_app, tiles_cons_empty, (tiles_cons_tile _ tv) by done.
    rewrite !tiles_app, tiles_cons_empty, (tiles_cons_tile _ tv) by done.
    rewrite inversions_move_in.
    rewrite <- (tiles_length empty l2) by done.
    rewrite <- (count_split tv (tiles empty l2))
      by (intros ?%elem_of_tiles; done).
    exists (- countAbove tv (tiles empty l2)). lia.
  - assert (tv ≠ empty) by congruence.
    rewrite !tiles_app, tiles_cons_empty, (tiles_cons_tile _ tv) by done.
    rewrite !tiles_app, tiles_cons_empty, (tiles_cons_tile _ tv) by done.
    pose proof (inversions_move_in tv (tiles empty l1) (tiles empty l2)
                  (tiles empty l3)) as Hmove.
    rewrite <- (tiles_length empty l2) by done.
    rewrite <- (count_split tv (tiles empty l2))
      by (intros ?%elem_of_tiles; done).
    exists (- countBelow tv (tiles empty l2)). lia.
Qed.

Lemma index_from_NoDup (l : list (option Z)) (v : Z) (k : nat) (i : Z) :
  NoDup l → l !! k = Some (Some v) → JsArray.index_from l v i = i + Z.of_nat k.
Proof.
  revert k i. induction l as [|x l IH]; intros k i Hnd Hk; [done|].
  apply NoDup_cons in Hnd as [Hx Hnd]. cbn [JsArray.index_from].
  destruct k as [|k]; simplify_eq/=.
  - rewrite decide_True by done. lia.
  - rewrite decide_False.
    + rewrite (IH k) by done. lia.
    + intros ->. apply Hx. by eapply list_elem_of_lookup_2.
Qed.

Lemma getEmptyRow_board (p : PuzzleState) :
  PuzzleInv p → getEmptyRow (grid p) (size p) = emptyIndex p / size p.
Proof.
  intros (Hb & He0 & He). unfold getEmptyRow, JsArray.indexOf.
  rewrite (index_from_NoDup _ _ (Z.to_nat (emptyIndex p))); [|by eapply board_NoDup|done].
  f_equal. lia.
Qed.

Lemma rem_2_congruent (a b k : Z) :
  a - b = 2 * k → (Z.rem a 2 =? 0) = (Z.rem b 2 =? 0).
Proof.
  intros Hk. apply eq_true_iff_eq. rewrite !Z.eqb_eq, !Z.rem_divide by lia.
  split; intros [q Hq].
  - exists (q - k). lia.
  - exists (q + k). lia.
Qed.

Lemma verdict_parity (size c c' r r' d k : Z) :
  0 < size → c' - c = d - 1 + 2 * k →
  (d = 1 ∧ r' = r) ∨ (d = size ∧ (r' = r + 1 ∨ r' = r - 1)) →
  (if Z.rem size 2 =? 1 then Z.rem c' 2 =? 0 else Z.rem (c' + r') 2 =? 0)
  = (if Z.rem size 2 =? 1 then Z.rem c 2 =? 0 else Z.rem (c + r) 2 =? 0).
Proof.
  intros Hsize Hc Hd.
  rewrite (Z.rem_mod_nonneg size 2) by lia.
  pose proof (Z.div_mod size 2 ltac:(lia)) as Hdm.
  pose proof (Z.mod_pos_bound size 2 ltac:(lia)) as Hm.
  destruct (Z.eqb_spec (size mod 2) 1) as [Hodd|Heven].
  - destruct Hd as [[-> _]|[-> _]].
    + apply (rem_2_congruent _ _ k). lia.
    + apply (rem_2_congruent _ _ (size / 2 + k)). lia.
  - destruct Hd as [[-> ->]|[-> [-> | ->]]].
    + apply (rem_2_congruent _ _ k). lia.
    + apply (rem_2_congruent _ _ (size / 2 + k)). lia.
    + apply (rem_2_congruent _ _ (size / 2 + k - 1)). lia.
Qed.

Lemma makeMove_verdict (p p' : PuzzleState) (t : Z) :
  PuzzleInv p → 0 < size p → makeMove p t = Some p' →
  isSolvable (grid p') (size p') = isSolvable (grid p) (size p).
Proof.
  intros Hinv Hsize Hm.
  pose proof (makeMove_PuzzleInv p p' t Hinv Hm) as Hinv'.
  unfold isSolvable, countInversions.
  rewrite (getEmptyRow_board p Hinv), (getEmptyRow_board p' Hinv').
  destruct Hinv as (Hb & He0 & He).
  apply makeMove_Some_inv in Hm as (Hv & tv & ev & [Ht0 Ht] & [_ He'] & ->).
  assert (ev = size p * size p - 1) as -> by congruence.
  cbn [grid size emptyIndex JsArray.elems].
  set (empty := size p * size p - 1) in *.
  set (l := JsArray.elems (grid p)) in *.
  assert (Hnd : NoDup l) by by eapply board_NoDup.
  assert (Hdef : ∀ o, o ∈ l → is_Some o).
  { intros o Ho. unfold l in Ho. rewrite Hb in Ho.
    apply list_elem_of_fmap in Ho as (v & -> & _). by eexists. }
  assert (Htl : 0 <= t < size p * size p).
  { pose proof (lookup_lt_length (grid p) _ _ Ht0 Ht) as Hlt.
    by rewrite (board_length (size p)) in Hlt by (lia || done). }
  unfold isValidMove in Hv.
  apply bool_decide_eq_true, elem_of_getAdjacentIndices in Hv.
  rewrite Z.rem_mod_nonneg in Hv by lia.
  pose proof (Z.div_mod t (size p) ltac:(lia)) as Hdm.
  pose proof (Z.mod_pos_bound t (size p) Hsize) as Hr.
  set (q := t / size p) in *. set (r := t mod size p) in *.
  assert (Hbefore :
            emptyIndex p < t →
            ∃ k, count_from (<[Z.to_nat (emptyIndex p):=Some tv]>
                               (<[Z.to_nat t:=Some empty]> l)) empty
                 - count_from l empty = (t - emptyIndex p) - 1 + 2 * k).
  { intros Hlt. rewrite list_insert_insert_ne by lia.
    destruct (exchange_count l empty tv (Z.to_nat (emptyIndex p)) (Z.to_nat t)
                (Some empty) (Some tv)) as [k Hk]; try done; [lia|by left|].
    exists k. rewrite Hk. lia. }
  assert (Hafter :
            t < emptyIndex p →
            ∃ k, count_from (<[Z.to_nat (emptyIndex p):=Some tv]>
                               (<[Z.to_nat t:=Some empty]> l)) empty
                 - count_from l empty = (emptyIndex p - t) - 1 + 2 * k).
  { intros Hlt.
    destruct (exchange_count l empty tv (Z.to_nat t) (Z.to_nat (emptyIndex p))
                (Some tv) (Some empty)) as [k Hk]; try done; [lia|by right|].
    exists k. rewrite Hk. lia. }
  destruct Hv as [[Hg Heq]|[[Hg Heq]|[[Hg Heq]|[Hg Heq]]]].
  - destruct (Hbefore ltac:(lia)) as [k Hk].
    destruct (cell_coordinates (size p) (emptyIndex p) (q - 1) r) as [Hq' _]; [lia|lia|].
    apply (verdict_parity _ _ _ _ _ (size p) k); [done|lia|]. right. split; [lia|].
    left. fold q. lia.
  - destruct (Hafter ltac:(lia)) as [k Hk].
    destruct (cell_coordinates (size p) (emptyIndex p) (q + 1) r) as [Hq' _]; [lia|lia|].
    apply (verdict_parity _ _ _ _ _ (size p) k); [done|lia|]. right. split; [lia|].
    right. fold q. lia.
  - destruct (Hbefore ltac:(lia)) as [k Hk].
    destruct (cell_coordinates (size p) (emptyIndex p) q (r - 1)) as [Hq' _]; [lia|lia|].
    apply (verdict_parity _ _ _ _ _ 1 k); [done|lia|]. left. split; [done|].
    fold q. lia.
  - destruct (Hafter ltac:(lia)) as [k Hk].
    destruct (cell_coordinates (size p) (emptyIndex p) q (r + 1)) as [Hq' _]; [lia|lia|].
    apply (verdict_parity _ _ _ _ _ 1 k); [done|lia|]. left. split; [done|].
    fold q. lia.
Qed.

(** X10.  A move keeps the verdict of [isSolvable]: on a state satisfying
    the invariant, the state [makeMove] returns passes the test exactly when
    the state it was given does. *)
Theorem makeMove_isSolvable (p p' : PuzzleState) (t : Z) :
  PuzzleInv p → 0 < size p → makeMove p t = Some p' →
  isSolvable (grid p') (size p') = isSolvable (grid p) (size p).
Proof. apply makeMove_verdict. Qed.

Lemma makeMove_isSolvable_witness :
  isSolvable
    (JsArray.Make [Some 0; Some 1; Some 2; Some 3; Some 4; Some 8; Some 6; Some 7; Some 5] ∅) 3
  = isSolvable (solvedGrid 9) 3.
Proof.
  apply (makeMove_isSolvable (mkPuzzle (solvedGrid 9) 8 3)
           (mkPuzzle (JsArray.Make [Some 0; Some 1; Some 2; Some 3; Some 4;
                                    Some 8; Some 6; Some 7; Some 5] ∅) 5 3) 5).
  - split; [unfold isBoard; vm_compute; reflexivity|].
    split; [simpl; lia|reflexivity].
  - simpl. lia.
  - reflexivity.
Defined.

(** ** Which states can be solved *)

Lemma isSolvable_elems (g g' : jsarray) (size : Z) :
  JsArray.elems g = JsArray.elems g' → isSolvable g size = isSolvable g' size.
Proof.
  intros Heq.
  unfold isSolvable, countInversions, getEmptyRow, JsArray.indexOf.
  by rewrite Heq.
Qed.

Lemma makeMove_size (p p' : PuzzleState) (t : Z) :
  makeMove p t = Some p' → size p' = size p.
Proof. by intros (_ & tv & ev & _ & _ & ->)%makeMove_Some_inv. Qed.

Lemma playMoves_keeps (p p' : PuzzleState) (ts : list Z) :
  PuzzleInv p → 0 < size p → playMoves p ts = Some p' →
  PuzzleInv p' ∧ size p' = size p ∧
  isSolvable (grid p') (size p') = isSolvable (grid p) (size p).
Proof.
  revert p. induction ts as [|t ts IH]; intros p Hinv Hsize Hplay.
  - by simplify_eq/=.
  - cbn [playMoves] in Hplay.
    destruct (makeMove p t) as [p1|] eqn:Hm; [|done]. simpl in Hplay.
    pose proof (makeMove_size _ _ _ Hm) as Hs1.
    destruct (IH p1) as (Hinv' & Hs' & Hv'); [by eapply makeMove_PuzzleInv|lia|done|].
    split; [done|]. split; [lia|].
    rewrite Hv'. by apply (makeMove_verdict p p1 t).
Qed.

Lemma solved_verdict (p p' : PuzzleState) (ts : list Z) :
  PuzzleInv p → 0 < size p →
  playMoves p ts = Some p' → isSolved p' = true →
  isSolvable (grid p) (size p) = Z.odd (size p).
Proof.
  intros Hinv Hsize Hplay Hsolved.
  destruct (playMoves_keeps p p' ts Hinv Hsize Hplay) as ((Hb' & _) & Hs' & <-).
  rewrite <- (solvedGrid_verdict (size p)), Hs' by done.
  apply isSolvable_elems.
  apply isSolved_spec in Hsolved. rewrite Hsolved.
  by rewrite (board_length (size p')), Hs' by (lia || done).
Qed.

(** X11.  If a sequence of valid moves leads from a state satisfying the
    invariant to a solved state, then that state passes [isSolvable] when
    the size is odd and fails it when the size is even. *)
Theorem solved_by_moves_verdict (p p' : PuzzleState) (ts : list Z) :
  PuzzleInv p → 0 < size p →
  playMoves p ts = Some p' → isSolved p' = true →
  isSolvable (grid p) (size p) = Z.odd (size p).
Proof. apply solved_verdict. Qed.

Lemma solved_by_moves_verdict_witness :
  isSolvable (fallbackGrid (4 * 4)) 4 = Z.odd 4.
Proof.
  apply (solved_by_moves_verdict (mkPuzzle (fallbackGrid (4 * 4)) 14 4)
           (mkPuzzle (JsArray.Make (Some <$> seqZ 0 16) ∅) 15 4) [15]).
  - split; [unfold isBoard; vm_compute; repeat apply perm_skip; apply perm_swap|].
    split; [simpl; lia|reflexivity].
  - simpl. lia.
  - reflexivity.
  - reflexivity.
Defined.





(** * Further properties of the leaderboard *)

Lemma sortAndRank_TableInv (inserted : list LeaderboardEntry) (name : string) :
  NoDup (username <$> inserted) → TableInv (table (sortAndRank inserted name)).
Proof.
  intros Hnd. unfold sortAndRank. cbn [table]. split; [|split].
  - apply (StronglySorted_app_1_l lexLe _ (drop 100 (sortEntries inserted))).
    rewrite take_drop. apply sortEntries_sorted.
  - rewrite fmap_take. eapply sublist_NoDup; [|apply sublist_take].
    by rewrite sortEntries_Permutation.
  - rewrite length_take. lia.
Qed.

Lemma submit_TableInv (leaderboard : list LeaderboardEntry) (entry : LeaderboardEntry) :
  TableInv leaderboard → TableInv (table (submit leaderboard entry)).
Proof.
  intros Hinv.
  destruct (saved (submit leaderboard entry)) eqn:Hsaved.
  - destruct (submit_saved_inserted _ _ Hsaved) as (inserted & -> & Hins).
    apply sortAndRank_TableInv.
    eapply inserted_names_NoDup; [apply Hinv|done].
  - revert Hsaved. unfold submit.
    repeat match goal with
           | |- context [ if ?b then _ else _ ] => destruct b
           | |- context [ match ?o with Some _ => _ | None => _ end ] => destruct o
           end; simpl; done.
Qed.

(** X13.  The submission route keeps every stored table sorted by
    (time, moves), with one entry per player and at most 100 entries. *)
Theorem submitScore_keeps_tables (body : SubmitScoreRequest)
    (currentUsername : option string) (today : string) (w : World) :
  (∀ k t, redis w !! k = Some t → TableInv t) →
  ∀ k t, redis (submitScore body currentUsername today w).2 !! k = Some t →
         TableInv t.
Proof.
  intros Hinv k t. unfold submitScore.
  destruct (_ || _); [apply Hinv|].
  destruct currentUsername as [[|c name]|]; [apply Hinv| |apply Hinv].
  unfold bind, redis_get, redis_set, ret. cbn [fst snd redis].
  set (key := leaderboardKey today (req_difficulty body)).
  set (old := default [] (redis w !! key)).
  assert (Hold : TableInv old).
  { unfold old. destruct (redis w !! key) as [t0|] eqn:Hk; simpl.
    - by apply (Hinv key).
    - repeat split; [constructor|constructor|simpl; lia]. }
  destruct (saved (submit old _)) eqn:Hsaved; cbn [snd redis]; [|apply Hinv].
  destruct (decide (k = key)) as [->|Hne].
  - rewrite lookup_insert_eq. intros [= <-]. by apply submit_TableInv.
  - rewrite lookup_insert_ne by done. apply Hinv.
Qed.

Lemma submitScore_keeps_tables_witness :
  TableInv [mkEntry "alice" 10 5 3 "2025-01-01"].
Proof.
  refine (submitScore_keeps_tables (mkRequest 10 5 3) (Some "alice"%string)
            "2025-01-01" (mkWorld ∅ []) _ "leaderboard:2025-01-01:3" _ _).
  - intros k t Hk. simpl in Hk. by rewrite lookup_empty in Hk.
  - vm_compute. reflexivity.
Defined.

(** X14.  A submission whose time, moves or difficulty is 0, or made when
    no user name is known, is answered with an error, and the store is
    neither read nor written. *)
Theorem submitScore_rejects (body : SubmitScoreRequest)
    (currentUsername : option string) (today : string) (w : World) :
  req_time body = 0 ∨ req_moves body = 0 ∨ req_difficulty body = 0 ∨
  currentUsername = None ∨ currentUsername = Some ""%string →
  ∃ code msg,
    submitScore body currentUsername today w = (ErrorResponse code msg, w) ∧
    (code = 400 ∨ code = 401).
Proof.
  intros Hbad. unfold submitScore.
  destruct (Z.eqb_spec (req_time body) 0); [by eexists _, _; split; [|left]|].
  destruct (Z.eqb_spec (req_moves body) 0); [by eexists _, _; split; [|left]|].
  destruct (Z.eqb_spec (req_difficulty body) 0); [by eexists _, _; split; [|left]|].
  simpl.
  destruct Hbad as [?|[?|[?|[-> | ->]]]]; try done;
    by eexists _, _; split; [|right].
Qed.

Lemma submitScore_rejects_witness :
  ∃ code msg,
    submitScore (mkRequest 0 12 3) (Some "alice"%string) "2025-01-01" (mkWorld ∅ [])
    = (ErrorResponse code msg, mkWorld ∅ []) ∧
    (code = 400 ∨ code = 401).
Proof.
  apply (submitScore_rejects (mkRequest 0 12 3) (Some "alice"%string)
           "2025-01-01" (mkWorld ∅ [])).
  left. reflexivity.
Defined.

(** X15.  The submission route writes no key but the one of the day and
    the difficulty submitted. *)
Theorem submitScore_other_keys (body : SubmitScoreRequest)
    (currentUsername : option string) (today : string) (w : World) (k : string) :
  k ≠ leaderboardKey today (req_difficulty body) →
  redis (submitScore body currentUsername today w).2 !! k = redis w !! k.
Proof.
  intros Hk. unfold submitScore.
  destruct (_ || _); [done|].
  destruct currentUsername as [[|c name]|]; [done| |done].
  unfold bind, redis_get, redis_set, ret. cbn [fst snd redis].
  destruct (saved _); cbn [snd redis]; [|done].
  by rewrite lookup_insert_ne.
Qed.

Lemma submitScore_other_keys_witness :
  redis (submitScore (mkRequest 10 5 3) (Some "alice"%string) "2025-01-01"
           (mkWorld ∅ [])).2 !! "leaderboard:2025-01-01:4"%string
  = redis (mkWorld ∅ []) !! "leaderboard:2025-01-01:4"%string.
Proof.
  apply (submitScore_other_keys (mkRequest 10 5 3) (Some "alice"%string)
           "2025-01-01" (mkWorld ∅ []) "leaderboard:2025-01-01:4").
  vm_compute. discriminate.
Defined.

Lemma findIndex_nonneg_iff (name : string) (l : list LeaderboardEntry) :
  (0 <= findIndex name l ↔ name ∈ username <$> l) ∧
  (findIndex name l = -1 ∨ 0 <= findIndex name l).
Proof.
  destruct (firstEntryOf_cases name l) as [(i & e & Hfirst)|Habsent].
  - rewrite (findIndex_first _ _ _ _ Hfirst).
    split; [|right; lia]. split; [intros _|lia].
    destruct Hfirst as (Hi & <- & _).
    apply list_elem_of_fmap. exists e. split; [done|].
    by eapply list_elem_of_lookup_2.
  - rewrite (findIndex_absent _ _ Habsent). split; [|by left].
    split; [lia|done].
Qed.

(** X16.  When a submission is saved, the rank answered is 0 exactly when
    the submitter has no entry in the saved table, and at least 1
    otherwise. *)
Theorem submit_rank_zero (leaderboard : list LeaderboardEntry)
    (entry : LeaderboardEntry) :
  saved (submit leaderboard entry) = true →
  let r := submit leaderboard entry in
  (rank r = 0 ↔ username entry ∉ username <$> table r) ∧
  (rank r = 0 ∨ 1 <= rank r <= 100).
Proof.
  intros Hsaved.
  destruct (submit_saved_inserted _ _ Hsaved) as (inserted & Heq & _).
  simpl. rewrite Heq. unfold sortAndRank. cbn [rank table].
  set (t := take 100 (sortEntries inserted)).
  destruct (findIndex_nonneg_iff (username entry) t) as [Hiff Hcases].
  split.
  - split.
    + intros Hz Hin. apply Hiff in Hin. lia.
    + intros Hnin. destruct Hcases as [->|Hge]; [done|]. by apply Hiff in Hge.
  - destruct Hcases as [->|Hge]; [by left|right].
    destruct (firstEntryOf_cases (username entry) t) as [(i & e & Hfirst)|Habsent].
    + rewrite (findIndex_first _ _ _ _ Hfirst).
      destruct Hfirst as (Hi & _). apply lookup_lt_Some in Hi.
      unfold t in Hi. rewrite length_take in Hi. lia.
    + rewrite (findIndex_absent _ _ Habsent) in Hge. lia.
Qed.

Lemma submit_rank_zero_witness :
  let r := submit [] (mkEntry "u" 100 50 3 "2025-01-01") in
  (rank r = 0 ↔ "u"%string ∉ username <$> table r) ∧
  (rank r = 0 ∨ 1 <= rank r <= 100).
Proof. apply (submit_rank_zero [] (mkEntry "u" 100 50 3 "2025-01-01")). reflexivity. Defined.

Lemma insertEntry_last (a entry : LeaderboardEntry) (l : list LeaderboardEntry) :
  lexLe a entry → insertEntry a (l ++ [entry]) = insertEntry a l ++ [entry].
Proof.
  intros Hle. induction l as [|b l IH]; simpl.
  - destruct (Z.ltb_spec 0 (compareEntries a entry)) as [Hlt|]; [|done].
    apply compareEntries_pos in Hlt. unfold lexLt, lexLe in *. lia.
  - destruct (0 <? compareEntries a b); [by rewrite IH|done].
Qed.

Lemma sortEntries_last (entry : LeaderboardEntry) (l : list LeaderboardEntry) :
  (∀ a, a ∈ l → lexLe a entry) →
  sortEntries (l ++ [entry]) = sortEntries l ++ [entry].
Proof.
  induction l as [|a l IH]; intros Hle; simpl; [done|].
  rewrite IH by (intros b Hb; apply Hle; by right).
  apply insertEntry_last, Hle. by left.
Qed.

(** X17.  A new player whose score is not strictly better than any of the
    100 or more entries of the table is not stored: the table saved is the
    old one re-sorted and cut to 100, and the route answers rank 0 with the
    message of a successful submission. *)
Theorem submit_dropped (leaderboard : list LeaderboardEntry)
    (entry : LeaderboardEntry) :
  (100 <= length leaderboard)%nat →
  username entry ∉ username <$> leaderboard →
  (∀ a, a ∈ leaderboard → lexLe a entry) →
  submit leaderboard entry
  = mkResult (take 100 (sortEntries leaderboard)) true 0
      "Score submitted successfully".
Proof.
  intros Hlen Habsent Hle. unfold submit.
  rewrite (findIndex_absent _ _ Habsent). simpl.
  unfold sortAndRank. rewrite sortEntries_last by done.
  rewrite take_app_le by (rewrite sortEntries_Permutation; lia).
  rewrite findIndex_absent; [done|].
  intros Hin. apply Habsent.
  rewrite fmap_take in Hin. apply subseteq_take in Hin.
  by rewrite sortEntries_Permutation in Hin.
Qed.

(** X18.  With one entry per player in the table, the table saved by a
    submission holds no entry of the submitter but the score submitted:
    the old score is gone. *)
Theorem submit_replaces (leaderboard : list LeaderboardEntry)
    (entry : LeaderboardEntry) :
  NoDup (username <$> leaderboard) →
  saved (submit leaderboard entry) = true →
  ∀ e, e ∈ table (submit leaderboard entry) → username e = username entry →
       e = entry.
Proof.
  intros Hnd Hsaved e.
  destruct (submit_saved_inserted _ _ Hsaved) as (inserted & -> & Hins).
  unfold sortAndRank. cbn [table]. intros He Hname.
  apply subseteq_take in He.
  rewrite sortEntries_Permutation in He.
  destruct Hins as [[Habsent ->]|(i & existing & (Hi & Hn & _) & _ & ->)].
  - apply elem_of_app in He as [He|He%list_elem_of_singleton]; [|done].
    exfalso. apply Habsent. rewrite <- Hname.
    apply list_elem_of_fmap. by exists e.
  - apply list_elem_of_lookup in He as [j Hj].
    destruct (decide (j = i)) as [->|Hne].
    + rewrite list_lookup_insert_eq in Hj by by eapply lookup_lt_Some. congruence.
    + rewrite list_lookup_insert_ne in Hj by done.
      exfalso. apply Hne.
      apply (NoDup_lookup _ j i (username entry) Hnd).
      * by rewrite list_lookup_fmap, Hj, <- Hname.
      * by rewrite list_lookup_fmap, Hi, <- Hn.
Qed.

Lemma submit_replaces_witness :
  mkEntry "u" 120 40 3 "2025-01-01"
  ∉ table (submit [mkEntry "u" 120 40 3 "2025-01-01"]
             (mkEntry "u" 100 50 3 "2025-01-01")).
Proof.
  intros Hin.
  pose proof (submit_replaces [mkEntry "u" 120 40 3 "2025-01-01"]
                (mkEntry "u" 100 50 3 "2025-01-01")
                (NoDup_singleton _) eq_refl _ Hin eq_refl) as Heq.
  discriminate.
Defined.

Lemma submit_dropped_witness :
  submit fullTable (mkEntry "late" 10 5 3 "2025-01-01")
  = mkResult (take 100 (sortEntries fullTable)) true 0
      "Score submitted successfully".
Proof.
  apply (submit_dropped fullTable (mkEntry "late" 10 5 3 "2025-01-01")).
  - unfold fullTable. rewrite length_fmap, length_seq. lia.
  - apply (bool_decide_unpack _). vm_compute. reflexivity.
  - intros a Ha. unfold fullTable in Ha.
    apply list_elem_of_fmap in Ha as (i & -> & _).
    unfold lexLe. simpl. lia.
Defined.

(** ** Submitting, then querying *)

(** X19.  After a submission the route accepts, the query route asked for
    the same day and difficulty answers the table [submit] computed, and
    does not change the store. *)
Theorem submit_then_query (parseInt : string → option Z)
    (body : SubmitScoreRequest) (name today difficultyStr : string) (w : World) :
  req_time body ≠ 0 → req_moves body ≠ 0 →
  req_difficulty body = 3 ∨ req_difficulty body = 4 ∨ req_difficulty body = 5 →
  name ≠ ""%string → difficultyStr ≠ ""%string →
  parseInt difficultyStr = Some (req_difficulty body) →
  let key := leaderboardKey today (req_difficulty body) in
  let entry := mkEntry name (req_time body) (req_moves body) (req_difficulty body) today in
  let result := submit (default [] (redis w !! key)) entry in
  let w1 := (submitScore body (Some name) today w).2 in
  (submitScore body (Some name) today w).1
  = SubmitScoreResponse (rank result) (message result) ∧
  (getLeaderboard parseInt None (Some difficultyStr) today w1).1
  = LeaderboardResponse (table result) today (req_difficulty body) ∧
  redis (getLeaderboard parseInt None (Some difficultyStr) today w1).2 = redis w1.
Proof.
  intros Ht Hm Hd Hname Hds Hparse key entry result.
  unfold submitScore.
  destruct (Z.eqb_spec (req_time body) 0); [done|].
  destruct (Z.eqb_spec (req_moves body) 0); [done|].
  destruct (Z.eqb_spec (req_difficulty body) 0); [lia|].
  cbn [orb].
  destruct name as [|c name]; [done|].
  unfold bind, redis_get, redis_set, ret. cbn [fst snd redis].
  fold key. fold entry. fold result.
  unfold getLeaderboard.
  destruct difficultyStr as [|c' ds]; [done|].
  rewrite Hparse.
  assert (negb (req_difficulty body =? 3) && negb (req_difficulty body =? 4)
          && negb (req_difficulty body =? 5) = false) as ->.
  { destruct Hd as [->|[->| ->]]; reflexivity. }
  unfold bind, redis_get, ret. fold key.
  destruct (saved result) eqn:Hsaved; cbn [fst snd redis].
  - split; [done|]. split; [|done]. by rewrite lookup_insert_eq.
  - split; [done|]. split; [|done]. f_equal.
    assert (Htable : table result = default [] (redis w !! key)).
    { revert Hsaved. unfold result, submit.
      repeat match goal with
             | |- context [ if ?b then _ else _ ] => destruct b
             | |- context [ match ?o with Some _ => _ | None => _ end ] => destruct o
             end; simpl; done. }
    by rewrite Htable.
Qed.

Lemma submit_then_query_witness :
  let parseInt := fun s : string => if String.eqb s "3" then Some 3 else None in
  let body := mkRequest 100 50 3 in
  let w := mkWorld ∅ [] in
  let key := leaderboardKey "2025-01-01" 3 in
  let entry := mkEntry "alice" 100 50 3 "2025-01-01" in
  let result := submit (default [] (redis w !! key)) entry in
  let w1 := (submitScore body (Some "alice"%string) "2025-01-01" w).2 in
  (submitScore body (Some "alice"%string) "2025-01-01" w).1
  = SubmitScoreResponse (rank result) (message result) ∧
  (getLeaderboard parseInt None (Some "3"%string) "2025-01-01" w1).1
  = LeaderboardResponse (table result) "2025-01-01" 3 ∧
  redis (getLeaderboard parseInt None (Some "3"%string) "2025-01-01" w1).2 = redis w1.
Proof.
  apply (submit_then_query
           (fun s : string => if String.eqb s "3" then Some 3 else None)
           (mkRequest 100 50 3) "alice" "2025-01-01" "3" (mkWorld ∅ []));
    try (simpl; lia); try discriminate; try reflexivity.
Defined.

(** * Properties of the scheduler and of the daily state *)

Lemma toInt32_range (x : Z) : - 2 ^ 31 <= toInt32 x < 2 ^ 31.
Proof.
  unfold toInt32. pose proof (Z.mod_pos_bound (x + 2 ^ 31) (2 ^ 32)). lia.
Qed.

Lemma toInt32_congruent (x : Z) : ∃ k, toInt32 x = x + 2 ^ 32 * k.
Proof.
  exists (- ((x + 2 ^ 31) / 2 ^ 32)). unfold toInt32.
  pose proof (Z.div_mod (x + 2 ^ 31) (2 ^ 32)). lia.
Qed.

Lemma toInt32_shift (x k : Z) : toInt32 (x + 2 ^ 32 * k) = toInt32 x.
Proof.
  unfold toInt32. f_equal.
  replace (x + 2 ^ 32 * k + 2 ^ 31) with (x + 2 ^ 31 + k * 2 ^ 32) by lia.
  apply Z_mod_plus_full.
Qed.

Lemma hashStep_range (hash char : Z) :
  - 2 ^ 31 <= hashStep hash char < 2 ^ 31.
Proof. unfold hashStep. rewrite Z.land_diag. apply toInt32_range. Qed.

(** One step of the loop is one step of the base-31 polynomial, wrapped to
    32 bits. *)
Lemma hashStep_polynomial (P char : Z) :
  hashStep (toInt32 P) char = toInt32 (31 * P + char).
Proof.
  unfold hashStep. rewrite Z.land_diag, Z.shiftl_mul_pow2 by lia.
  destruct (toInt32_congruent P) as [k1 H1].
  destruct (toInt32_congruent (toInt32 P)) as [k2 H2].
  destruct (toInt32_congruent (toInt32 (toInt32 P) * 2 ^ 5)) as [k3 H3].
  rewrite H3, H2, H1.
  replace ((P + 2 ^ 32 * k1 + 2 ^ 32 * k2) * 2 ^ 5 + 2 ^ 32 * k3
           - (P + 2 ^ 32 * k1) + char)
    with (31 * P + char + 2 ^ 32 * (31 * k1 + 32 * k2 + k3)) by lia.
  apply toInt32_shift.
Qed.

Lemma fold_left_step {A B} (f : A → B → A) (x : B) (l : list B) (a : A) :
  fold_left f (x :: l) a = fold_left f l (f a x).
Proof. reflexivity. Qed.

Lemma hash_loop_polynomial (codes : list Z) (P : Z) :
  fold_left hashStep codes (toInt32 P)
  = toInt32 (fold_left (fun h c => 31 * h + c) codes P).
Proof.
  revert P. induction codes as [|c codes IH]; intros P.
  - reflexivity.
  - rewrite !fold_left_step, hashStep_polynomial. apply IH.
Qed.

Lemma hashString_bounds (str : string) : 0 <= hashString str <= 2 ^ 31.
Proof.
  unfold hashString.
  change (fold_left hashStep (charCodes str) 0)
    with (fold_left hashStep (charCodes str) (toInt32 0)).
  rewrite hash_loop_polynomial.
  pose proof (toInt32_range (fold_left (fun h c => 31 * h + c) (charCodes str) 0)).
  lia.
Qed.

(** X20.  [hashString] is the absolute value of the base-31 polynomial of
    the code units wrapped to a signed 32-bit integer; it lies between 0
    and 2^31. *)
Theorem hashString_polynomial (str : string) :
  hashString str
  = Z.abs (toInt32 (fold_left (fun h c => 31 * h + c) (charCodes str) 0)) ∧
  0 <= hashString str <= 2 ^ 31.
Proof.
  split; [|apply hashString_bounds].
  unfold hashString.
  change (fold_left hashStep (charCodes str) 0)
    with (fold_left hashStep (charCodes str) (toInt32 0)).
  by rewrite hash_loop_polynomial.
Qed.

(** X21.  For every date string and every size in {3,4,5}, the puzzle
    built from the seed the scheduler derives from the date satisfies the
    invariant of puzzle states. *)
Theorem daily_puzzle_inv (today : string) (size : Z) :
  size = 3 ∨ size = 4 ∨ size = 5 →
  PuzzleInv (createShuffledPuzzle size (hashString today)).
Proof.
  intros Hsize. apply createShuffledPuzzle_inv; [lia|].
  unfold createShuffledPuzzle, createSeededRandom. cbn [grid].
  destruct (shuffleUntilSolvable_cases 100 size (hashString today)) as [[Hb _]|Hf];
    [apply hashString_bounds|done|].
  rewrite Hf. by apply fallbackGrid_board.
Qed.

Lemma daily_puzzle_inv_witness :
  PuzzleInv (createShuffledPuzzle 3 (hashString "2025-01-01")).
Proof. apply (daily_puzzle_inv "2025-01-01" 3). by left. Defined.

Section SchedulerFacts.

Variable isImageFile : string → bool.
Variable decodeAmp : string → string.

Lemma truthy_Some (s : option string) :
  Daily.truthy s = true → ∃ v, s = Some v ∧ v ≠ ""%string.
Proof.
  destruct s as [v|]; [|done]. simpl. intros Hv. exists v. split; [done|].
  intros ->. done.
Qed.

Lemma fetchDailyPuzzle_cases (platform : Daily.Platform) (today : string)
    (posts : list Daily.Post) (store : gmap string Daily.State) :
  let res := Daily.fetchDailyPuzzle isImageFile decodeAmp platform today posts store in
  (Daily.success res.1 = false ∧ res.2 = store) ∨
  (Daily.success res.1 = false ∧ is_Some (Daily.redisSetCurrent platform) ∧
   store !! Daily.todayKey today = None ∧
   ∃ dailyState, res.2 = <[Daily.todayKey today := dailyState]> store) ∨
  (Daily.success res.1 = true ∧ is_Some (store !! Daily.todayKey today) ∧
   res.2 = store) ∨
  (Daily.success res.1 = true ∧ store !! Daily.todayKey today = None ∧
   ∃ post img,
     posts !! 0%nat = Some post ∧
     Daily.pickImageUrl isImageFile decodeAmp post = Some img ∧ img ≠ ""%string ∧
     res.2 = <[Daily.currentKey := Daily.mkState img (Daily.id post) (hashString today) today]>
               (<[Daily.todayKey today :=
                    Daily.mkState img (Daily.id post) (hashString today) today]> store)).
Proof.
  unfold Daily.fetchDailyPuzzle.
  destruct (Daily.redisGet platform) as [e|]; simpl; [by left|].
  destruct (store !! Daily.todayKey today) as [s|] eqn:Hs; simpl.
  { right; right; left. repeat split; by eauto. }
  destruct (Daily.listingAll platform) as [e|]; simpl; [by left|].
  destruct (posts !! 0%nat) as [post|] eqn:Hp; simpl; [|by left].
  destruct (Daily.truthy (Daily.pickImageUrl isImageFile decodeAmp post)) eqn:Ht;
    simpl; [|by left].
  destruct (Daily.redisSetToday platform) as [e|]; simpl; [by left|].
  destruct (Daily.redisSetCurrent platform) as [e|]; simpl.
  { right; left. split; [done|]. split; [by eexists|]. split; [done|]. by eexists. }
  right; right; right. split; [done|]. split; [done|].
  apply truthy_Some in Ht as (img & Himg & Hne).
  exists post, img. rewrite Himg. simpl. done.
Qed.

Lemma fetchDailyPuzzle_again (platform : Daily.Platform) (today : string)
    (posts : list Daily.Post) (store : gmap string Daily.State) :
  Daily.redisGet platform = None → is_Some (store !! Daily.todayKey today) →
  Daily.fetchDailyPuzzle isImageFile decodeAmp platform today posts store
  = (Daily.mkFetch true ("Daily puzzle already exists for " +:+ today), store).
Proof.
  intros Hget [st Hst]. unfold Daily.fetchDailyPuzzle. by rewrite Hget, Hst.
Qed.

(** X22.  After a run of the scheduler that succeeds, every later run for
    the same day whose read of the store returns succeeds with "already
    exists" and changes nothing, whatever posts the platform lists.  A run
    that fails leaves the store as it was, except when it is the second
    write that throws: the state of the day is then written, and nothing
    else. *)
Theorem fetchDailyPuzzle_once (platform platform' : Daily.Platform)
    (today : string) (posts posts' : list Daily.Post)
    (store : gmap string Daily.State) :
  let res := Daily.fetchDailyPuzzle isImageFile decodeAmp platform today posts store in
  (Daily.success res.1 = true → Daily.redisGet platform' = None →
   Daily.fetchDailyPuzzle isImageFile decodeAmp platform' today posts' res.2
   = (Daily.mkFetch true ("Daily puzzle already exists for " +:+ today), res.2)) ∧
  (Daily.success res.1 = false →
   res.2 = store ∨
   (is_Some (Daily.redisSetCurrent platform) ∧
    store !! Daily.todayKey today = None ∧
    ∃ dailyState, res.2 = <[Daily.todayKey today := dailyState]> store)).
Proof.
  intros res.
  destruct (fetchDailyPuzzle_cases platform today posts store)
    as [[Hf Hs]|[(Hf & Hthrow & Hnone & Hs)|[(Ht & Hsome & Hs)
        |(Ht & Hnone & post & img & _ & _ & _ & Hs)]]];
    fold res in Hf || fold res in Ht; fold res in Hs.
  - split; [congruence|]. intros _. by left.
  - split; [congruence|]. intros _. by right.
  - split; [|congruence]. intros _ Hget. rewrite Hs.
    by apply fetchDailyPuzzle_again.
  - split; [|congruence]. intros _ Hget.
    apply fetchDailyPuzzle_again; [done|]. rewrite Hs.
    destruct (decide (Daily.currentKey = Daily.todayKey today)) as [->|Hne].
    + rewrite lookup_insert_eq. by eexists.
    + rewrite lookup_insert_ne, lookup_insert_eq by done. by eexists.
Qed.

(** X23.  After a run of the scheduler that creates the state of the day,
    the route [/daily-state] answers that state: the image picked from the
    first post, which is not empty, the post's id, the seed
    [hashString today] and the date of the day. *)
Theorem fetch_then_getDailyState (platform : Daily.Platform) (today : string)
    (posts : list Daily.Post) (store : gmap string Daily.State) :
  store !! Daily.todayKey today = None →
  let res := Daily.fetchDailyPuzzle isImageFile decodeAmp platform today posts store in
  Daily.success res.1 = true →
  ∃ post img,
    posts !! 0%nat = Some post ∧
    Daily.pickImageUrl isImageFile decodeAmp post = Some img ∧ img ≠ ""%string ∧
    Daily.getDailyState today res.2
    = Daily.DailyStateResponse img (Daily.id post) (hashString today) today.
Proof.
  intros Hnone res Hok.
  destruct (fetchDailyPuzzle_cases platform today posts store)
    as [[Hf _]|[(Hf & _)|[(_ & [s Hs] & _)
        |(_ & _ & post & img & Hp & Hi & Hne & Hs)]]];
    [fold res in Hf; congruence|fold res in Hf; congruence|congruence|].
  fold res in Hs. exists post, img. repeat split; try done.
  unfold Daily.getDailyState. rewrite Hs.
  destruct (decide (Daily.currentKey = Daily.todayKey today)) as [Heq|Hneq].
  - rewrite <- Heq, lookup_insert_eq. done.
  - rewrite lookup_insert_ne, lookup_insert_eq by done. done.
Qed.

End SchedulerFacts.

Lemma fetch_then_getDailyState_witness :
  let isImageFile := fun _ : string => false in
  let decodeAmp := fun s : string => s in
  let platform := Daily.mkPlatform None None None None in
  let posts := [Daily.mkPost "t3_1" "" (Some "https://i.example/a.png"%string) None] in
  let res := Daily.fetchDailyPuzzle isImageFile decodeAmp platform "2025-01-01" posts ∅ in
  ∃ post img,
    posts !! 0%nat = Some post ∧
    Daily.pickImageUrl isImageFile decodeAmp post = Some img ∧ img ≠ ""%string ∧
    Daily.getDailyState "2025-01-01" res.2
    = Daily.DailyStateResponse img (Daily.id post) (hashString "2025-01-01") "2025-01-01".
Proof.
  apply (fetch_then_getDailyState (fun _ : string => false) (fun s : string => s)
           (Daily.mkPlatform None None None None) "2025-01-01"
           [Daily.mkPost "t3_1" "" (Some "https://i.example/a.png"%string) None] ∅).
  - reflexivity.
  - reflexivity.
Defined.

Lemma fetchDailyPuzzle_once_witness :
  let isImageFile := fun _ : string => false in
  let decodeAmp := fun s : string => s in
  let platform := Daily.mkPlatform None None None None in
  let posts := [Daily.mkPost "t3_1" "" (Some "https://i.example/a.png"%string) None] in
  let res := Daily.fetchDailyPuzzle isImageFile decodeAmp platform "2025-01-01" posts ∅ in
  Daily.fetchDailyPuzzle isImageFile decodeAmp platform "2025-01-01" [] res.2
  = (Daily.mkFetch true "Daily puzzle already exists for 2025-01-01", res.2).
Proof.
  apply (proj1 (fetchDailyPuzzle_once (fun _ : string => false) (fun s : string => s)
                  (Daily.mkPlatform None None None None)
                  (Daily.mkPlatform None None None None)
                  "2025-01-01"
                  [Daily.mkPost "t3_1" "" (Some "https://i.example/a.png"%string) None]
                  [] ∅)).
  - reflexivity.
  - reflexivity.
Defined.

(** * Properties of the game client *)

Lemma created_PuzzleInv (size seed : Z) :
  size = 3 ∨ size = 4 ∨ size = 5 → 0 <= seed →
  PuzzleInv (createShuffledPuzzle size seed).
Proof.
  intros Hsize Hseed. apply createShuffledPuzzle_inv; [lia|].
  unfold createShuffledPuzzle, createSeededRandom. cbn [grid].
  destruct (shuffleUntilSolvable_cases 100 size seed Hseed) as [[Hb _]|Hf]; [done|].
  rewrite Hf. by apply fallbackGrid_board.
Qed.

(** What one click does: nothing, or one more move on the puzzle
    [makeMove] returned. *)
Lemma handleTileClick_cases (gs : Client.GameState) (t : Z) :
  Client.handleTileClick gs t = gs ∨
  ∃ current newPuzzle,
    Client.isSolvedFlag gs = false ∧
    Client.puzzle gs = Some current ∧ makeMove current t = Some newPuzzle ∧
    Client.puzzle (Client.handleTileClick gs t) = Some newPuzzle ∧
    Client.moves (Client.handleTileClick gs t) = Client.moves gs + 1 ∧
    Client.isSolvedFlag (Client.handleTileClick gs t) = isSolved newPuzzle ∧
    (isSolved newPuzzle = true →
     Client.timerRunning (Client.handleTileClick gs t) = false).
Proof.
  unfold Client.handleTileClick.
  destruct (Client.puzzle gs) as [current|] eqn:Hp; [|by left].
  destruct (Client.isSolvedFlag gs) eqn:Hflag; [by left|].
  destruct (makeMove current t) as [newPuzzle|] eqn:Hm; [|by left].
  right. exists current, newPuzzle.
  destruct (isSolved newPuzzle) eqn:Hs; simpl; by rewrite ?Hs.
Qed.

Lemma handleTileClick_GameInv (gs : Client.GameState) (t : Z) :
  GameInv gs → GameInv (Client.handleTileClick gs t).
Proof.
  intros [Hpuzzle Hflag].
  destruct (handleTileClick_cases gs t)
    as [->|(cur & new & Hf & Hp & Hm & Hp' & _ & Hs & Htimer)]; [done|].
  split.
  - intros p. rewrite Hp'. intros [= <-].
    eapply makeMove_PuzzleInv; [|done]. by apply Hpuzzle.
  - rewrite Hs. intros Hsolved. split; [by apply Htimer|]. by exists new.
Qed.

(** X24.  Whatever sequence of tiles is clicked, the game state keeps its
    invariant, and the move counter grows by at most one per click. *)
Theorem clicks_keep_GameInv (gs : Client.GameState) (ts : list Z) :
  GameInv gs →
  let gs' := fold_left Client.handleTileClick ts gs in
  GameInv gs' ∧
  Client.moves gs <= Client.moves gs' <= Client.moves gs + Z.of_nat (length ts).
Proof.
  revert gs. induction ts as [|t ts IH]; intros gs Hinv; simpl.
  - split; [done|lia].
  - destruct (IH (Client.handleTileClick gs t)) as [Hinv' Hmoves];
      [by apply handleTileClick_GameInv|].
    split; [done|].
    destruct (handleTileClick_cases gs t) as [Heq|(cur & new & _ & _ & _ & _ & Hm & _)].
    + rewrite Heq in *. lia.
    + lia.
Qed.

(** X25.  Once the solved flag is set, clicks change nothing. *)
Theorem clicks_after_solved (gs : Client.GameState) (ts : list Z) :
  Client.isSolvedFlag gs = true →
  fold_left Client.handleTileClick ts gs = gs.
Proof.
  intros Hflag. induction ts as [|t ts IH]; simpl; [done|].
  assert (Client.handleTileClick gs t = gs) as ->; [|done].
  unfold Client.handleTileClick. rewrite Hflag. by destruct (Client.puzzle gs).
Qed.

(** X26.  With a daily state whose seed is between 0 and 5411272429 (the
    range on which the generator's arithmetic is exact, which holds every
    seed the scheduler stores) and a difficulty in {3,4,5}, [resetPuzzle]
    starts a game that satisfies the invariant, with no move counted, the
    solved flag cleared and the timer stopped. *)
Theorem resetPuzzle_GameInv (gs : Client.GameState) (daily : Daily.State) :
  Client.dailyState gs = Some daily →
  0 <= Daily.shuffleSeed daily <= maxExactSeed →
  Client.difficulty gs = 3 ∨ Client.difficulty gs = 4 ∨ Client.difficulty gs = 5 →
  let gs' := Client.resetPuzzle gs in
  GameInv gs' ∧ Client.moves gs' = 0 ∧ Client.isSolvedFlag gs' = false ∧
  Client.timerRunning gs' = false ∧
  Client.puzzle gs'
  = Some (createShuffledPuzzle (Client.difficulty gs) (Daily.shuffleSeed daily)).
Proof.
  intros Hd [Hseed _] Hdiff. unfold Client.resetPuzzle. rewrite Hd. cbv zeta.
  split; [|done]. split.
  - intros q. cbn [Client.puzzle]. intros [= <-]. by apply created_PuzzleInv.
  - cbn [Client.isSolvedFlag]. done.
Qed.

Lemma clicks_keep_GameInv_witness :
  let gs := Client.mkGame (Some (mkPuzzle (solvedGrid 9) 8 3)) None 3 0 false false false in
  let gs' := fold_left Client.handleTileClick [5; 0; 8] gs in
  GameInv gs' ∧
  Client.moves gs <= Client.moves gs' <= Client.moves gs + Z.of_nat (length [5; 0; 8]).
Proof.
  apply (clicks_keep_GameInv
           (Client.mkGame (Some (mkPuzzle (solvedGrid 9) 8 3)) None 3 0 false false false)
           [5; 0; 8]).
  split.
  - intros p [= <-].
    split; [unfold isBoard; vm_compute; reflexivity|].
    split; [simpl; lia|reflexivity].
  - discriminate.
Defined.

Lemma clicks_after_solved_witness :
  let gs := Client.mkGame (Some (mkPuzzle (solvedGrid 9) 8 3)) None 3 12 true false false in
  fold_left Client.handleTileClick [5; 7] gs = gs.
Proof.
  apply (clicks_after_solved
           (Client.mkGame (Some (mkPuzzle (solvedGrid 9) 8 3)) None 3 12 true false false)
           [5; 7]).
  reflexivity.
Defined.

Lemma resetPuzzle_GameInv_witness :
  let daily := Daily.mkState "https://i.example/a.png" "t3_1" 42 "2025-01-01" in
  let gs := Client.mkGame None (Some daily) 3 7 true true true in
  let gs' := Client.resetPuzzle gs in
  GameInv gs' ∧ Client.moves gs' = 0 ∧ Client.isSolvedFlag gs' = false ∧
  Client.timerRunning gs' = false ∧
  Client.puzzle gs' = Some (createShuffledPuzzle 3 42).
Proof.
  apply (resetPuzzle_GameInv
           (Client.mkGame None
              (Some (Daily.mkState "https://i.example/a.png" "t3_1" 42 "2025-01-01"))
              3 7 true true true)
           (Daily.mkState "https://i.example/a.png" "t3_1" 42 "2025-01-01")).
  - reflexivity.
  - unfold maxExactSeed. simpl. lia.
  - left. reflexivity.
Defined.
